(** * Verification of [scripts/secret_scan.py] (OpenCone release gate)

    A shallow embedding of the secret scanner: the regular expressions
    of [_PATTERNS] as run by CPython's [re] engine, the lossy UTF-8
    decoding done by [Path.read_text], the traversal generator
    [iter_candidate_files], [scan_file] and [main].

    Python [str] values are sequences of Unicode code points; they are
    modelled as [list N].  File-system calls and [print] are effects:
    they live in a small monad that reads the answers of the file
    system from an oracle and logs every call in a trace. *)

From Stdlib Require Import NArith ZArith String Ascii List Bool Lia Sorted.
From Stdlib Require Import Init.Byte.
From stdpp Require Import base decidable countable gmap sets list.

Local Open Scope N_scope.

(** ** Text *)

Definition codepoint := N.
Definition text := list N.

(** An ASCII literal of the source as a sequence of code points. *)
Definition str (s : string) : text :=
  List.map N_of_ascii (list_ascii_of_string s).
Arguments str : simpl never.

Definition in_range (lo hi c : N) : bool := (lo <=? c) && (c <=? hi).

(** ** Character tests of the compiled patterns *)

(** [[A-Za-z0-9]] without flags: the 62 ASCII letters and digits. *)
Definition class_alnum (c : N) : bool :=
  in_range 65 90 c || in_range 97 122 c || in_range 48 57 c.

(** [\s] on a [str] pattern is [Py_UNICODE_ISSPACE]. *)
Definition unicode_isspace (c : N) : bool :=
  in_range 9 13 c || in_range 28 31 c || (c =? 32) || (c =? 133)
  || (c =? 160) || (c =? 5760) || in_range 8192 8202 c || (c =? 8232)
  || (c =? 8233) || (c =? 8239) || (c =? 8287) || (c =? 12288).

(** [_sre.unicode_tolower], the simple lower-case mapping, written out
    on the code points whose image is an ASCII character: A-Z, U+0130
    (capital I with dot above) and U+212A (Kelvin sign).  Every other
    code point has a non-ASCII image that meets none of the sets below;
    it is left in place. *)
Definition unicode_tolower (c : N) : N :=
  if in_range 65 90 c then c + 32
  else if c =? 304 then 105
  else if c =? 8490 then 107
  else c.

(** A cased literal [x] compiled under [re.IGNORECASE]
    ([LITERAL_UNI_IGNORE]): the subject character is lowered and
    compared with the lowered literal.  None of b, e, a, r has an entry
    in the engine's table of extra case equivalences. *)
Definition literal_ignore (x : N) (c : N) : bool :=
  unicode_tolower c =? unicode_tolower x.

(** [[A-Za-z0-9-_]] compiled under [re.IGNORECASE] ([IN_UNI_IGNORE]):
    the charset holds the lowered members of the class plus the extra
    equivalents of i and s (U+0131 dotless i, U+017F long s), and the
    subject character is lowered before the lookup. *)
Definition class_token_ignore (c : N) : bool :=
  let lo := unicode_tolower c in
  in_range 97 122 lo || in_range 48 57 lo || (lo =? 45) || (lo =? 95)
  || (lo =? 305) || (lo =? 383).

(** ** The regular-expression engine, on the fragment the patterns use *)

(** A pattern is a sequence of items: one character passing a test, or
    a greedy repetition [{min,}] of such a character. *)
Inductive item :=
| One (p : N -> bool)
| Many (p : N -> bool) (min : nat).

Definition regex := list item.

Definition literal (c : N) : item := One (N.eqb c).

(** The engine's [count]: length of the longest run of characters
    passing [p] at the head of the subject. *)
Fixpoint count (p : N -> bool) (s : text) : nat :=
  match s with
  | c :: s' => if p c then S (count p s') else O
  | [] => O
  end.

(** Greedy repetition: take [n] characters, try the rest of the pattern;
    on failure give one character back, as long as [min] remain. *)
Fixpoint backtrack (rest : text -> option nat) (s : text) (min n : nat)
  : option nat :=
  if Nat.ltb n min then None
  else match rest (drop n s) with
       | Some m => Some (n + m)%nat
       | None => match n with
                 | O => None
                 | S n' => backtrack rest s min n'
                 end
       end.

(** [pattern.match] at the head of [s]: the length of the match. *)
Fixpoint sre_match (r : regex) (s : text) : option nat :=
  match r with
  | [] => Some O
  | One p :: r' =>
      match s with
      | c :: s' => if p c then option_map S (sre_match r' s') else None
      | [] => None
      end
  | Many p min :: r' => backtrack (sre_match r') s min (count p s)
  end.

(** A match object: [m.start()], [m.end()] and [m.group(0)]. *)
Record Match := { m_start : nat; m_end : nat; group0 : text }.

(** [pattern.finditer]: scan from left to right; a match found at
    [pos] is reported and the scan resumes at its end ([skip] counts the
    characters of the last match still to be passed).  Every pattern
    of [_PATTERNS] needs 23 characters or more, so the engine's rules
    for empty matches never apply; an empty match is reported and the
    scan moves on by one character. *)
Fixpoint finditer_from (r : regex) (pos skip : nat) (s : text)
  : list Match :=
  match skip with
  | S k =>
      match s with
      | [] => []
      | _ :: s' => finditer_from r (S pos) k s'
      end
  | O =>
      match sre_match r s with
      | Some n =>
          {| m_start := pos; m_end := (pos + n)%nat; group0 := take n s |}
          :: match s with
             | [] => []
             | _ :: s' => finditer_from r (S pos) (n - 1) s'
             end
      | None =>
          match s with
          | [] => []
          | _ :: s' => finditer_from r (S pos) O s'
          end
      end
  end.

Definition finditer (r : regex) (s : text) : list Match :=
  finditer_from r O O s.

(** ** [_PATTERNS] *)

Definition re_openai_secret : regex :=
  List.map literal (str "sk-") ++ [Many class_alnum 20].

Definition re_openai_project : regex :=
  List.map literal (str "proj-") ++ [Many class_alnum 20].

Definition re_pinecone : regex :=
  List.map literal (str "pcsk_") ++ [Many class_alnum 20].

Definition re_bearer : regex :=
  List.map (fun x => One (literal_ignore x)) (str "bearer")
  ++ [Many unicode_isspace 1; Many class_token_ignore 20].

Definition _PATTERNS : list (text * regex) :=
  [ (str "OpenAI secret", re_openai_secret);
    (str "OpenAI project token", re_openai_project);
    (str "Pinecone server key", re_pinecone);
    (str "Generic bearer token", re_bearer) ].

(** Lines 71-76 of [scan_file]: the two nested loops appending to
    [matches]. *)
Definition scan_text (t : text) : list (text * text) :=
  fold_left
    (fun matches '(label, re) =>
       fold_left
         (fun matches m => matches ++ [(label, group0 m)])
         (finditer re t) matches)
    _PATTERNS [].


(** ** Decoding done by [read_text(encoding="utf-8", errors="ignore")] *)

Definition is_continuation (b : N) : bool := in_range 128 191 b.

(** CPython's UTF-8 decoder with the [ignore] error handler: a
    malformed sequence is dropped up to the byte where it became
    malformed and decoding resumes there; a sequence cut off by the end
    of the data is dropped whole. *)
Fixpoint utf8_decode_ignore (s : list byte) : text :=
  match s with
  | [] => []
  | b1 :: s1 =>
      let ch := Byte.to_N b1 in
      if ch <? 128 then ch :: utf8_decode_ignore s1
      else if ch <? 194 then utf8_decode_ignore s1
      else if ch <? 224 then
        match s1 with
        | [] => []
        | b2 :: s2 =>
            let ch2 := Byte.to_N b2 in
            if is_continuation ch2
            then (ch * 64 + ch2 - 12416) :: utf8_decode_ignore s2
            else utf8_decode_ignore s1
        end
      else if ch <? 240 then
        match s1 with
        | [] => []
        | b2 :: s2 =>
            let ch2 := Byte.to_N b2 in
            if negb (is_continuation ch2)
               || (if ch2 <? 160 then ch =? 224 else ch =? 237)
            then utf8_decode_ignore s1
            else
              match s2 with
              | [] => []
              | b3 :: s3 =>
                  let ch3 := Byte.to_N b3 in
                  if is_continuation ch3
                  then (ch * 4096 + ch2 * 64 + ch3 - 925824)
                       :: utf8_decode_ignore s3
                  else utf8_decode_ignore s2
              end
        end
      else if ch <? 245 then
        match s1 with
        | [] => []
        | b2 :: s2 =>
            let ch2 := Byte.to_N b2 in
            if negb (is_continuation ch2)
               || (if ch2 <? 144 then ch =? 240 else ch =? 244)
            then utf8_decode_ignore s1
            else
              match s2 with
              | [] => []
              | b3 :: s3 =>
                  let ch3 := Byte.to_N b3 in
                  if negb (is_continuation ch3) then utf8_decode_ignore s2
                  else
                    match s3 with
                    | [] => []
                    | b4 :: s4 =>
                        let ch4 := Byte.to_N b4 in
                        if is_continuation ch4
                        then (ch * 262144 + ch2 * 4096 + ch3 * 64 + ch4
                              - 63447168)
                             :: utf8_decode_ignore s4
                        else utf8_decode_ignore s3
                    end
              end
        end
      else utf8_decode_ignore s1
  end.

(** Text mode reads with universal newlines: a carriage return, with
    the line feed that may follow it, becomes one line feed. *)
Fixpoint translate_newlines (t : text) : text :=
  match t with
  | [] => []
  | c :: t' =>
      if c =? 13 then
        10 :: match t' with
              | [] => []
              | c' :: t'' =>
                  if c' =? 10 then translate_newlines t''
                  else translate_newlines t'
              end
      else c :: translate_newlines t'
  end.

Definition decode_text (bs : list byte) : text :=
  translate_newlines (utf8_decode_ignore bs).

(** ** Paths *)

(** A [Path]: the components of an absolute path. *)
Definition Path := list text.

Definition joinpath (root rel : Path) : Path := root ++ rel.

(** [path.relative_to(root)]: the components left after the prefix
    [root]; [None] is the [ValueError] of a path that is not below
    [root]. *)
Fixpoint relative_to (path root : Path) {struct root} : option Path :=
  match root with
  | [] => Some path
  | r :: root' =>
      match path with
      | [] => None
      | c :: path' =>
          if decide (c = r) then relative_to path' root' else None
      end
  end.

(** [str(path)]. *)
Definition path_str (p : Path) : text :=
  match p with
  | [] => str "/"
  | _ => flat_map (fun c => 47 :: c) p
  end.

(** ** The file system and the effects of the program *)

(** What the operating system answers.  [None] stands for a call that
    raises [OSError].  [Path.exists] and [Path.is_file] stat the path:
    they answer [False] when the path is gone (errno ENOENT, ENOTDIR,
    EBADF or ELOOP) and raise on any other failure, a directory that
    may not be searched for instance.  [fs_rglob] lists the entries
    below a root by their relative paths. *)
Record FileSystem := {
  fs_resolve : text -> Path;
  fs_exists : Path -> option bool;
  fs_rglob : Path -> list Path;
  fs_is_file : Path -> option bool;
  fs_st_size : Path -> option Z;
  fs_read_bytes : Path -> option (list byte)
}.

Inductive Stream := Stdout | Stderr.

Inductive Event :=
| EvResolve (p : text)
| EvExists (p : Path)
| EvRglob (root : Path)
| EvIsFile (p : Path)
| EvStat (p : Path)
| EvReadText (p : Path)
| EvPrint (dst : Stream) (s : text).

Inductive exn := ValueError | OSError.

Inductive result (A : Type) :=
| Ok (a : A)
| Raise (e : exn).
Arguments Ok {A} a.
Arguments Raise {A} e.

(** A computation reads the file system, returns or raises, and leaves
    the trace of the calls it made. *)
Definition M (A : Type) : Type := FileSystem -> result A * list Event.

Definition ret {A} (a : A) : M A := fun _ => (Ok a, []).

Definition bind {A B} (m : M A) (k : A -> M B) : M B :=
  fun fs =>
    match m fs with
    | (Ok a, t1) => let '(r, t2) := k a fs in (r, t1 ++ t2)
    | (Raise e, t1) => (Raise e, t1)
    end.

Definition raise {A} (e : exn) : M A := fun _ => (Raise e, []).

Definition call {A} (ev : Event) (answer : FileSystem -> A) : M A :=
  fun fs => (Ok (answer fs), [ev]).

(** A call that may raise [OSError] out of the function that makes
    it. *)
Definition call_or_raise {A} (ev : Event) (answer : FileSystem -> option A)
  : M A :=
  fun fs =>
    match answer fs with
    | Some a => (Ok a, [ev])
    | None => (Raise OSError, [ev])
    end.

Notation "x <- c1 ;; c2" := (bind c1 (fun x => c2))
  (at level 100, c1 at next level, right associativity).
Notation "c1 ;; c2" := (bind c1 (fun _ => c2))
  (at level 100, right associativity).

(** A [for] loop whose body updates the loop state [acc]. *)
Fixpoint for_each {A St : Type} (xs : list A) (body : St -> A -> M St)
    (acc : St) : M St :=
  match xs with
  | [] => ret acc
  | x :: xs' => acc' <- body acc x ;; for_each xs' body acc'
  end.

Definition resolve (p : text) : M Path :=
  call (EvResolve p) (fun fs => fs_resolve fs p).

Definition exists_ (p : Path) : M bool :=
  call_or_raise (EvExists p) (fun fs => fs_exists fs p).

(** [root.rglob("*")]: every entry below [root], as [root] joined with
    its relative path.  The walk is taken as one call that lists the
    entries in the order the generator gives them. *)
Definition rglob (root : Path) : M (list Path) :=
  call (EvRglob root) (fun fs => List.map (joinpath root) (fs_rglob fs root)).

Definition is_file (p : Path) : M bool :=
  call_or_raise (EvIsFile p) (fun fs => fs_is_file fs p).

Definition stat_st_size (p : Path) : M (option Z) :=
  call (EvStat p) (fun fs => fs_st_size fs p).

Definition read_text (p : Path) : M (option text) :=
  call (EvReadText p) (fun fs => option_map decode_text (fs_read_bytes fs p)).

Definition print (dst : Stream) (s : text) : M unit :=
  call (EvPrint dst s) (fun _ => tt).

(** ** [_DEFAULT_IGNORES] and [iter_candidate_files] *)

Definition _DEFAULT_IGNORES : gset text :=
  {[ str ".git"; str ".github"; str "DerivedData"; str "build";
     str "node_modules"; str "Pods"; str "scripts/__pycache__" ]}.

(** Lines 41-42: the set the traversal tests against. *)
Definition ignore_set (extra_ignores : list text) : gset text :=
  _DEFAULT_IGNORES ∪ list_to_set extra_ignores.

(** Line 49: [any(part in ignore_prefixes for part in relative.parts)]. *)
Definition any_part_ignored (ignore_prefixes : gset text) (relative : Path)
  : bool :=
  existsb (fun part => bool_decide (part ∈ ignore_prefixes)) relative.

Definition size_limit : Z := 2 * 1024 * 1024.

(** The body of the loop of [iter_candidate_files] for one [path];
    [yield] is what the consumer of the generator does with a path. *)
Definition candidate_step {St : Type} (root : Path)
    (ignore_prefixes : gset text) (yield : St -> Path -> M St)
    (acc : St) (path : Path) : M St :=
  f <- is_file path ;;
  if negb f then ret acc
  else
    match relative_to path root with
    | None => raise ValueError
    | Some relative =>
        if any_part_ignored ignore_prefixes relative then ret acc
        else
          st <- stat_st_size path ;;
          match st with
          | None => ret acc
          | Some size =>
              if (size >? size_limit)%Z then ret acc
              else yield acc path
          end
    end.

(** The generator, driven by its consumer: each [yield path] runs the
    consumer's loop body on the state [acc] before the walk goes on. *)
Definition iter_candidate_files {St : Type} (root : Path)
    (extra_ignores : list text) (yield : St -> Path -> M St) (acc : St)
  : M St :=
  let ignore_prefixes := ignore_set extra_ignores in
  paths <- rglob root ;;
  for_each paths (candidate_step root ignore_prefixes yield) acc.

(** The paths the generator yields, in order. *)
Definition candidate_files (root : Path) (extra_ignores : list text)
  : M (list Path) :=
  iter_candidate_files root extra_ignores
    (fun acc path => ret (acc ++ [path])) [].

(** ** [scan_file] *)

Definition scan_file (path : Path) : M (list (text * text)) :=
  r <- read_text path ;;
  match r with
  | None => ret []
  | Some t => ret (scan_text t)
  end.

(** ** [main] *)

Record Namespace := { arg_path : text; arg_exclude : list text }.

Definition Finding : Type := Path * text * text.

(** Lines 100-103: the findings of every candidate, in order. *)
Definition collect_findings (root : Path) (exclude : list text)
  : M (list Finding) :=
  iter_candidate_files root exclude
    (fun findings candidate =>
       found <- scan_file candidate ;;
       ret (fold_left
              (fun findings '(label, snippet) =>
                 findings ++ [(candidate, label, snippet)])
              found findings))
    [].

Definition msg_no_root (root : Path) : text :=
  str "error: path '" ++ path_str root ++ str "' does not exist".

Definition msg_header : text := str "Detected potential secrets:".

Definition msg_finding (f : Finding) : text :=
  let '(candidate, label, snippet) := f in
  str "  " ++ path_str candidate ++ str ": " ++ label ++ str " -> "
  ++ take 60 snippet.

Definition msg_remediation : text :=
  10 :: str "Remove these values or move them to secure storage before proceeding.".

(** The success message, code point by code point as the source file
    has it (U+00E2, U+0153, U+2026, then the ASCII sentence). *)
Definition msg_clean : text :=
  [226; 339; 8230] ++ str " No secret patterns detected.".

(** Lines 95-113: [main] from the parsed arguments on.  Lines 80-93
    build the parser and parse the command line into [args]; a command
    line that [argparse] refuses ends the process there, with status 2,
    and never reaches line 95. *)
Definition main (args : Namespace) : M Z :=
  root <- resolve (arg_path args) ;;
  e <- exists_ root ;;
  if negb e then
    print Stderr (msg_no_root root) ;;
    ret 2%Z
  else
    findings <- collect_findings root (arg_exclude args) ;;
    match findings with
    | _ :: _ =>
        print Stderr msg_header ;;
        for_each findings (fun _ f => print Stderr (msg_finding f)) tt ;;
        print Stderr msg_remediation ;;
        ret 1%Z
    | [] =>
        print Stdout msg_clean ;;
        ret 0%Z
    end.

(** Lines 116-117, [sys.exit(main())]: the status of the process is
    what [main] returns; an exception that leaves [main] ends the
    process, after the traceback, with status 1. *)
Definition exit_status (r : result Z) : Z :=
  match r with
  | Ok code => code
  | Raise _ => 1%Z
  end.

(** What a stream has received: each [print] writes its argument and a
    line feed. *)
Fixpoint stream_text (dst : Stream) (tr : list Event) : text :=
  match tr with
  | [] => []
  | EvPrint d s :: tr' =>
      match d, dst with
      | Stdout, Stdout | Stderr, Stderr => s ++ 10 :: stream_text dst tr'
      | _, _ => stream_text dst tr'
      end
  | _ :: tr' => stream_text dst tr'
  end.

(** * Notions used in the statements *)

(** The strings a pattern accepts, declaratively. *)
Inductive accepts : regex -> text -> Prop :=
| acc_nil : accepts [] []
| acc_one p r c u : p c = true -> accepts r u -> accepts (One p :: r) (c :: u)
| acc_many p min r w u :
    forallb p w = true -> (min <= length w)%nat -> accepts r u ->
    accepts (Many p min :: r) (w ++ u).

(** The least length of a match. *)
Fixpoint min_length (r : regex) : nat :=
  match r with
  | [] => O
  | One _ :: r' => S (min_length r')
  | Many _ min :: r' => (min + min_length r')%nat
  end.

(** Matches in text order, none overlapping the next. *)
Definition in_order (ms : list Match) : Prop :=
  StronglySorted (fun a b => (m_end a <= m_start b)%nat) ms.

(** A match reported by the scan started at offset [pos] of the text:
    it lies [i] characters into [s], where the pattern matches [n]
    characters. *)
Definition found_at (r : regex) (s : text) (pos lo : nat) (m : Match) : Prop :=
  exists i n, (lo <= i)%nat /\ sre_match r (drop i s) = Some n /\
    m_start m = (pos + i)%nat /\ m_end m = (pos + i + n)%nat /\
    group0 m = take n (drop i s).

(** The findings of one pattern: one per match, in the order of the
    matches. *)
Definition pattern_findings (t : text) (p : text * regex)
  : list (text * text) :=
  List.map (fun m => (fst p, group0 m)) (finditer (snd p) t).

(** A match object of [t] for [r]: a non-empty substring of [t] at
    which [r] matches. *)
Definition located (r : regex) (t : text) (m : Match) : Prop :=
  (m_start m < m_end m <= length t)%nat /\
  sre_match r (drop (m_start m) t) = Some (m_end m - m_start m)%nat /\
  group0 m = take (m_end m - m_start m) (drop (m_start m) t).

(** [is_file] answers, and answers yes. *)
Definition says_file (fs : FileSystem) (p : Path) : bool :=
  match fs_is_file fs p with
  | Some true => true
  | _ => false
  end.

(** The test a relative path passes to be yielded. *)
Definition is_candidate (fs : FileSystem) (root : Path) (ign : gset text)
    (rel : Path) : bool :=
  let p := joinpath root rel in
  says_file fs p && negb (any_part_ignored ign rel) &&
  match fs_st_size fs p with
  | Some size => negb (size >? size_limit)%Z
  | None => false
  end.

(** Some [is_file] call of the walk raises. *)
Definition walk_raises (fs : FileSystem) (root : Path) (rels : list Path)
  : bool :=
  existsb (fun rel =>
             match fs_is_file fs (joinpath root rel) with
             | None => true
             | Some _ => false
             end) rels.

(** The entries the walk reaches: all of them, or those up to the
    first one on which [is_file] raises, that one included. *)
Fixpoint reached (fs : FileSystem) (root : Path) (rels : list Path)
  : list Path :=
  match rels with
  | [] => []
  | rel :: rels' =>
      rel :: match fs_is_file fs (joinpath root rel) with
             | None => []
             | Some _ => reached fs root rels'
             end
  end.

(** The calls the traversal makes for one entry; [ytr] is the trace of
    the consumer on a yielded path. *)
Definition step_events (fs : FileSystem) (root : Path) (ign : gset text)
    (ytr : Path -> list Event) (rel : Path) : list Event :=
  let p := joinpath root rel in
  EvIsFile p ::
  (if says_file fs p && negb (any_part_ignored ign rel)
   then EvStat p :: (if is_candidate fs root ign rel then ytr p else [])
   else []).

(** The paths yielded for [root] before the walk ends, and the
    findings they give. *)
Definition candidates (fs : FileSystem) (root : Path) (exclude : list text)
  : list Path :=
  List.map (joinpath root)
    (List.filter (is_candidate fs root (ignore_set exclude))
       (reached fs root (fs_rglob fs root))).

Definition file_findings (fs : FileSystem) (p : Path) : list Finding :=
  List.map (fun '(label, snippet) => (p, label, snippet))
    match fs_read_bytes fs p with
    | None => []
    | Some bs => scan_text (decode_text bs)
    end.

Definition traversal_trace (fs : FileSystem) (root : Path)
    (exclude : list text) (ytr : Path -> list Event) : list Event :=
  EvRglob root
  :: flat_map (step_events fs root (ignore_set exclude) ytr)
       (reached fs root (fs_rglob fs root)).

(** The lines [main] prints after the scan. *)
Definition report (findings : list Finding) : list Event :=
  match findings with
  | [] => [EvPrint Stdout msg_clean]
  | _ :: _ =>
      EvPrint Stderr msg_header
      :: List.map (fun f => EvPrint Stderr (msg_finding f)) findings
      ++ [EvPrint Stderr msg_remediation]
  end.

(** Does [part] hold the path separator?  The components of a path
    never do. *)
Definition has_separator (part : text) : bool := existsb (N.eqb 47) part.

(** The defaults that name a single component. *)
Definition component_ignores : gset text :=
  {[ str ".git"; str ".github"; str "DerivedData"; str "build";
     str "node_modules"; str "Pods" ]}.

Definition is_print (ev : Event) : bool :=
  match ev with EvPrint _ _ => true | _ => false end.

(** What [main] writes for one finding: two spaces, the path, the label
    and the first 60 characters of the snippet, then a line feed. *)
Definition finding_line (f : Finding) : text :=
  let '(p, label, snippet) := f in
  str "  " ++ path_str p ++ str ": " ++ label ++ str " -> "
  ++ take 60 snippet ++ [10].

(** The error stream of a run with findings. *)
Definition stderr_report (findings : list Finding) : text :=
  str "Detected potential secrets:" ++ [10]
  ++ flat_map finding_line findings
  ++ [10]
  ++ str "Remove these values or move them to secure storage before proceeding."
  ++ [10].

(** The report as the specification words it: a header line, one line
    [<path>: <label> -> <snippet-first-60-chars>] per finding, and the
    closing sentence. *)
Definition spec_finding_line (f : Finding) : text :=
  let '(p, label, snippet) := f in
  path_str p ++ str ": " ++ label ++ str " -> " ++ take 60 snippet ++ [10].

Definition spec_stderr_report (findings : list Finding) : text :=
  str "Detected potential secrets:" ++ [10]
  ++ flat_map spec_finding_line findings
  ++ str "Remove these values or move them to secure storage before proceeding."
  ++ [10].

(** Two file systems give the same answer to a call. *)
Definition answers_agree (fs1 fs2 : FileSystem) (ev : Event) : Prop :=
  match ev with
  | EvResolve p => fs_resolve fs1 p = fs_resolve fs2 p
  | EvExists p => fs_exists fs1 p = fs_exists fs2 p
  | EvRglob root => fs_rglob fs1 root = fs_rglob fs2 root
  | EvIsFile p => fs_is_file fs1 p = fs_is_file fs2 p
  | EvStat p => fs_st_size fs1 p = fs_st_size fs2 p
  | EvReadText p => fs_read_bytes fs1 p = fs_read_bytes fs2 p
  | EvPrint _ _ => True
  end.

(** A computation is determined by the answers to the calls it makes:
    on a file system that answers those calls alike it returns the same
    result and makes the same calls. *)
Definition determined {A : Type} (m : M A) : Prop :=
  forall fs1 fs2,
    Forall (answers_agree fs1 fs2) (snd (m fs1)) -> m fs2 = m fs1.

(** [[A-Za-z0-9-_]] as a set of characters. *)
Definition class_token (c : N) : bool :=
  class_alnum c || (c =? 45) || (c =? 95).

(** The class as [re.IGNORECASE] widens it: four letters outside ASCII
    have a lower or upper case in A-Z, a-z (U+0130, U+0131, U+017F and
    U+212A). *)
Definition class_token_unicode (c : N) : bool :=
  class_token c || (c =? 304) || (c =? 305) || (c =? 383) || (c =? 8490).

(** The lower-case ASCII letter [x] in either case. *)
Definition letter_anycase (x c : N) : bool := (c =? x) || (c + 32 =? x).

(** [s] starts with characters that pass [lit] against those of [xs]:
    what is left of [s]. *)
Fixpoint starts_with (lit : N -> N -> bool) (xs s : text) : option text :=
  match xs with
  | [] => Some s
  | x :: xs' =>
      match s with
      | [] => None
      | c :: s' => if lit x c then starts_with lit xs' s' else None
      end
  end.

(** [s] is the word "bearer" (each letter tested by [lit]), then one or
    more characters of [space], then 20 or more characters of [tok] up
    to the end. *)
Definition bearer_shape (lit : N -> N -> bool) (space tok : N -> bool)
    (s : text) : bool :=
  match starts_with lit (str "bearer") s with
  | None => false
  | Some rest =>
      let w := count space rest in
      Nat.leb 1 w && Nat.leb 20 (length (drop w rest))
      && forallb tok (drop w rest)
  end.

(** The shape the specification gives: any letter case, space
    characters, the class [[A-Za-z0-9-_]]. *)
Definition spec_bearer_shape : text -> bool :=
  bearer_shape letter_anycase (N.eqb 32) class_token.

(** The shape the compiled pattern has. *)
Definition code_bearer_shape : text -> bool :=
  bearer_shape letter_anycase unicode_isspace class_token_unicode.

(** The character that follows offset [i] of [t], if any, fails [p]. *)
Definition stops_at (p : N -> bool) (t : text) (i : nat) : Prop :=
  match drop i t with
  | [] => True
  | c :: _ => p c = false
  end.

(** A match that is [prefix] and then the whole run of letters and
    digits that follows it in [t], 20 or more of them. *)
Definition whole_token (prefix t : text) (m : Match) : Prop :=
  exists tok,
    group0 m = prefix ++ tok /\ forallb class_alnum tok = true /\
    (20 <= length tok)%nat /\ stops_at class_alnum t (m_end m).


(** A Unicode scalar value: a code point up to U+10FFFF that is not a
    surrogate. *)
Definition scalar_value (c : N) : Prop :=
  c <= 1114111 /\ ~ (55296 <= c <= 57343).

(** ** Lossy decoding, in the specification's words *)

(** The UTF-8 encoding of a scalar value (RFC 3629), as byte values:
    one to four bytes, of six payload bits each after the first. *)
Definition utf8_encode (c : N) : list N :=
  if c <? 128 then [c]
  else if c <? 2048 then [192 + c / 64; 128 + c mod 64]
  else if c <? 65536 then
    [224 + c / 4096; 128 + (c / 64) mod 64; 128 + c mod 64]
  else [240 + c / 262144; 128 + (c / 4096) mod 64; 128 + (c / 64) mod 64;
        128 + c mod 64].

(** What the specification says of undecodable bytes, stated without
    the decoder: going through the bytes from the left, where the
    encoding of a scalar value starts, that character is decoded and
    its bytes are consumed; where none starts, that one byte is dropped
    and decoding goes on at the next byte.  Nothing else is dropped,
    and nothing is put in place of what is dropped. *)
Inductive lossy_decoding : list N -> text -> Prop :=
| lossy_nil : lossy_decoding [] []
| lossy_char c bs rest t :
    scalar_value c -> bs = utf8_encode c ++ rest ->
    lossy_decoding rest t -> lossy_decoding bs (c :: t)
| lossy_drop b rest t :
    (forall c tail, scalar_value c -> b :: rest <> utf8_encode c ++ tail) ->
    lossy_decoding rest t -> lossy_decoding (b :: rest) t.

(** A run in which every [is_file] call of the walk answers: none
    raises [OSError]. *)
Definition walk_answers (fs : FileSystem) (root : Path) : Prop :=
  Forall (fun rel => fs_is_file fs (joinpath root rel) <> None)
    (fs_rglob fs root).

(** * Example trees *)

(** A file that names a bearer token first and an OpenAI secret
    second: the findings come out in pattern order. *)
Definition fs_two_secrets : FileSystem := {|
  fs_resolve := fun _ => [str "repo"];
  fs_exists := fun _ => Some true;
  fs_rglob := fun _ => [[str "notes.txt"]];
  fs_is_file := fun _ => Some true;
  fs_st_size := fun _ => Some 58%Z;
  fs_read_bytes := fun _ =>
    Some (list_byte_of_string
            "Bearer abcDEF1234567890ZZZZ0000 sk-AAAAAAAAAAAAAAAAAAAAAAAA")
|}.

Definition fs_one_secret : FileSystem := {|
  fs_resolve := fun _ => [str "repo"];
  fs_exists := fun _ => Some true;
  fs_rglob := fun _ => [[str "key.txt"]];
  fs_is_file := fun _ => Some true;
  fs_st_size := fun _ => Some 27%Z;
  fs_read_bytes := fun _ =>
    Some (list_byte_of_string "sk-AAAAAAAAAAAAAAAAAAAAAAAA")
|}.


(** A tree with a secret under [build/], one under [rebuild/] and one
    under a directory excluded on the command line. *)
Definition fs_ignored : FileSystem := {|
  fs_resolve := fun _ => [str "repo"];
  fs_exists := fun _ => Some true;
  fs_rglob := fun _ =>
    [[str "build"; str "out.txt"]; [str "rebuild"; str "out.txt"];
     [str "vendor"; str "lib.txt"]];
  fs_is_file := fun _ => Some true;
  fs_st_size := fun _ => Some 27%Z;
  fs_read_bytes := fun _ =>
    Some (list_byte_of_string "sk-AAAAAAAAAAAAAAAAAAAAAAAA")
|}.

(** A compiled file below [scripts/__pycache__/] that holds a secret. *)
Definition fs_pycache : FileSystem := {|
  fs_resolve := fun _ => [str "repo"];
  fs_exists := fun _ => Some true;
  fs_rglob := fun _ => [[str "scripts"; str "__pycache__"; str "scan.pyc"]];
  fs_is_file := fun _ => Some true;
  fs_st_size := fun _ => Some 27%Z;
  fs_read_bytes := fun _ =>
    Some (list_byte_of_string "sk-AAAAAAAAAAAAAAAAAAAAAAAA")
|}.

(** A file that cannot be read, and one with a stray byte [0xff]
    inside a secret. *)
Definition fs_broken : FileSystem := {|
  fs_resolve := fun _ => [str "repo"];
  fs_exists := fun _ => Some true;
  fs_rglob := fun _ => [[str "locked.txt"]; [str "junk.bin"]];
  fs_is_file := fun _ => Some true;
  fs_st_size := fun _ => Some 28%Z;
  fs_read_bytes := fun p =>
    if decide (p = [str "repo"; str "locked.txt"]) then None
    else Some (list_byte_of_string "sk-" ++ xff
               :: list_byte_of_string "AAAAAAAAAAAAAAAAAAAAAAAA")
|}.

(** The tree of [fs_ignored] with other bytes in the file under
    [build/], which the scan never reads. *)
Definition fs_ignored' : FileSystem := {|
  fs_resolve := fs_resolve fs_ignored;
  fs_exists := fs_exists fs_ignored;
  fs_rglob := fs_rglob fs_ignored;
  fs_is_file := fs_is_file fs_ignored;
  fs_st_size := fs_st_size fs_ignored;
  fs_read_bytes := fun p =>
    if decide (p = [str "repo"; str "build"; str "out.txt"])
    then Some (list_byte_of_string "nothing to see")
    else fs_read_bytes fs_ignored p
|}.

Definition fs_bearer : FileSystem := {|
  fs_resolve := fun _ => [str "repo"];
  fs_exists := fun _ => Some true;
  fs_rglob := fun _ => [[str "curl.sh"]];
  fs_is_file := fun _ => Some true;
  fs_st_size := fun _ => Some 31%Z;
  fs_read_bytes := fun _ =>
    Some (list_byte_of_string "Bearer abcDEF1234567890ZZZZ0000")
|}.

(** A tree with a directory [src], a file in it and a file beside
    it. *)
Definition fs_dirs : FileSystem := {|
  fs_resolve := fun _ => [str "repo"];
  fs_exists := fun _ => Some true;
  fs_rglob := fun _ =>
    [[str "src"]; [str "README"]; [str "src"; str "main.swift"]];
  fs_is_file := fun p =>
    Some (negb (bool_decide (p = [str "repo"; str "src"])));
  fs_st_size := fun _ => Some 12%Z;
  fs_read_bytes := fun p =>
    if decide (p = [str "repo"; str "src"]) then None
    else Some (list_byte_of_string "let x = 1")
|}.

(** An empty directory. *)
Definition fs_empty : FileSystem := {|
  fs_resolve := fun _ => [str "empty"];
  fs_exists := fun _ => Some true;
  fs_rglob := fun _ => [];
  fs_is_file := fun _ => Some false;
  fs_st_size := fun _ => Some 4096%Z;
  fs_read_bytes := fun _ => None
|}.

(** A file with a line break, as CR LF, between [Bearer] and the
    token. *)
Definition fs_crlf : FileSystem := {|
  fs_resolve := fun _ => [str "repo"];
  fs_exists := fun _ => Some true;
  fs_rglob := fun _ => [[str "auth.http"]];
  fs_is_file := fun _ => Some true;
  fs_st_size := fun _ => Some 32%Z;
  fs_read_bytes := fun _ =>
    Some (list_byte_of_string "Bearer" ++ [x0d; x0a]
          ++ list_byte_of_string "abcDEF1234567890ZZZZ0000")
|}.

(** A tree with a readable file and a directory [locked] that may be
    listed but not searched: every [stat] of a path below it fails with
    a permission error, in [is_file] as in [stat]. *)
Definition fs_unsearchable : FileSystem := {|
  fs_resolve := fun _ => [str "repo"];
  fs_exists := fun _ => Some true;
  fs_rglob := fun _ =>
    [[str "a.txt"]; [str "locked"; str "key.txt"]; [str "z.txt"]];
  fs_is_file := fun p =>
    if decide (p = [str "repo"; str "locked"; str "key.txt"]) then None
    else Some true;
  fs_st_size := fun p =>
    if decide (p = [str "repo"; str "locked"; str "key.txt"]) then None
    else Some 5%Z;
  fs_read_bytes := fun p =>
    if decide (p = [str "repo"; str "locked"; str "key.txt"]) then None
    else Some (list_byte_of_string "hello")
|}.

(** A well-formed UTF-8 file: [Bearer], a space and twenty Kelvin
    signs (U+212A, bytes [e2 84 aa]). *)
Definition kelvin_bytes : list byte :=
  list_byte_of_string "Bearer " ++ concat (repeat [xe2; x84; xaa] 20).

Definition fs_kelvin : FileSystem := {|
  fs_resolve := fun _ => [str "repo"];
  fs_exists := fun _ => Some true;
  fs_rglob := fun _ => [[str "kelvin.txt"]];
  fs_is_file := fun _ => Some true;
  fs_st_size := fun _ => Some 67%Z;
  fs_read_bytes := fun _ => Some kelvin_bytes
|}.


(** A secret broken up by undecodable bytes: a three-byte sequence cut
    short ([e2 82]), an overlong form ([c0 af]), an encoded surrogate
    ([ed a0 80]) and a lead byte at the end of the data ([f0]); a
    well-formed two-byte character ([c3 a9]) follows the secret. *)
Definition garbled_bytes : list byte :=
  list_byte_of_string "sk-" ++ [xe2; x82]
  ++ list_byte_of_string "AAAAAAAAAAAA" ++ [xc0; xaf]
  ++ list_byte_of_string "AAAAAAAAAAAA" ++ [xed; xa0; x80]
  ++ [xc3; xa9; xf0].

Definition fs_garbled : FileSystem := {|
  fs_resolve := fun _ => [str "repo"];
  fs_exists := fun _ => Some true;
  fs_rglob := fun _ => [[str "garbled.bin"]];
  fs_is_file := fun _ => Some true;
  fs_st_size := fun _ => Some 38%Z;
  fs_read_bytes := fun _ => Some garbled_bytes
|}.

(** * Properties *)

(** ** The engine *)

Lemma count_le p s : (count p s <= length s)%nat.
Proof.
  induction s as [|c s IH]; simpl; [lia|].
  destruct (p c); simpl; lia.
Qed.

Lemma count_take p s j : (j <= count p s)%nat -> forallb p (take j s) = true.
Proof.
  revert j. induction s as [|c s IH]; intros [|j] Hj; simpl in *; try reflexivity; try lia.
  destruct (p c) eqn:Hc; [|lia].
  simpl. apply IH. lia.
Qed.

Lemma count_all p s : forallb p s = true -> count p s = length s.
Proof.
  induction s as [|c s IH]; simpl; [reflexivity|].
  destruct (p c); simpl; [|discriminate].
  intros H. f_equal. auto.
Qed.

Lemma count_app_stop p w s :
  forallb p w = true ->
  match s with [] => True | c :: _ => p c = false end ->
  count p (w ++ s) = length w.
Proof.
  intros Hw Hs. induction w as [|c w IH]; simpl in *.
  - destruct s as [|c s]; simpl; [reflexivity|]. now rewrite Hs.
  - apply andb_true_iff in Hw as [-> Hw]. f_equal. auto.
Qed.

(** What [backtrack] returns: a number of repetitions between [min]
    and [n], and a match of the rest of the pattern after them. *)
Lemma backtrack_Some rest s min n k :
  backtrack rest s min n = Some k ->
  exists j m, (min <= j <= n)%nat /\ rest (drop j s) = Some m /\ k = (j + m)%nat.
Proof.
  induction n as [|n IH]; simpl.
  - destruct (Nat.ltb_spec 0 min); [discriminate|].
    destruct (rest (drop 0 s)) as [m|] eqn:E; [|discriminate].
    intros [= <-]. exists O, m. repeat split; auto; lia.
  - destruct (Nat.ltb_spec (S n) min); [discriminate|].
    destruct (rest (drop (S n) s)) as [m|] eqn:E.
    + intros [= <-]. exists (S n), m. repeat split; auto; lia.
    + intros Hk. destruct (IH Hk) as (j & m & Hj & Hr & ->).
      exists j, m. repeat split; auto; lia.
Qed.

(** The greedy choice wins when the rest of the pattern accepts it. *)
Lemma backtrack_first rest s min n m :
  (min <= n)%nat -> rest (drop n s) = Some m ->
  backtrack rest s min n = Some (n + m)%nat.
Proof.
  intros Hmin Hr. destruct n as [|n]; simpl.
  - destruct (Nat.ltb_spec 0 min); [lia|]. simpl in Hr. now rewrite Hr.
  - destruct (Nat.ltb_spec (S n) min); [lia|]. now rewrite Hr.
Qed.

Lemma backtrack_short rest s min n :
  (n < min)%nat -> backtrack rest s min n = None.
Proof.
  intros H. apply Nat.ltb_lt in H. destruct n; simpl; now rewrite H.
Qed.

Lemma sre_match_sound r : forall s n,
  sre_match r s = Some n -> (n <= length s)%nat /\ accepts r (take n s).
Proof.
  induction r as [|[p|p min] r IH]; intros s n; simpl.
  - intros [= <-]. split; [lia|]. rewrite take_0. constructor.
  - destruct s as [|c s]; [discriminate|].
    destruct (p c) eqn:Hc; [|discriminate].
    destruct (sre_match r s) as [m|] eqn:E; [|discriminate].
    intros [= <-]. destruct (IH _ _ E) as [Hle Hacc].
    split; [simpl; lia|]. simpl. now constructor.
  - intros H. apply backtrack_Some in H as (j & m & Hj & Hr & ->).
    destruct (IH _ _ Hr) as [Hle Hacc].
    pose proof (count_le p s) as Hc.
    rewrite length_drop in Hle.
    split; [lia|].
    rewrite <- take_take_drop.
    constructor; auto.
    + apply count_take. lia.
    + rewrite length_take. lia.
Qed.

Lemma accepts_min_length r u : accepts r u -> (min_length r <= length u)%nat.
Proof.
  induction 1; simpl; try lia.
  rewrite length_app. lia.
Qed.

Lemma sre_match_min_length r s n :
  sre_match r s = Some n -> (min_length r <= n <= length s)%nat.
Proof.
  intros H. destruct (sre_match_sound _ _ _ H) as [Hle Hacc].
  apply accepts_min_length in Hacc. rewrite length_take in Hacc. lia.
Qed.

(** ** [finditer] *)

Lemma found_at_shift r c s pos lo m :
  found_at r s (S pos) lo m -> found_at r (c :: s) pos (S lo) m.
Proof.
  intros (i & n & Hi & Hm & Hs & He & Hg).
  exists (S i), n. simpl. repeat split; auto; lia.
Qed.

Lemma finditer_from_spec r s : forall pos skip,
  Forall (found_at r s pos skip) (finditer_from r pos skip s) /\
  in_order (finditer_from r pos skip s).
Proof.
  induction s as [|c s IH]; intros pos skip.
  - destruct skip as [|k]; simpl; [|split; constructor].
    destruct (sre_match r []) as [n|] eqn:E; [|split; constructor].
    split.
    + constructor; [|constructor].
      exists O, n. simpl. repeat split; auto; lia.
    + repeat constructor.
  - destruct skip as [|k]; simpl.
    + destruct (sre_match r (c :: s)) as [n|] eqn:E.
      * destruct (IH (S pos) (n - 1)%nat) as [HF HS]. split.
        -- constructor.
           ++ exists O, n. simpl. repeat split; auto; lia.
           ++ eapply Forall_impl; [exact HF|]. intros m Hm.
              apply (found_at_shift r c) in Hm.
              destruct Hm as (i & n' & Hi & Hm & Hs' & He & Hg).
              exists i, n'. repeat split; auto; lia.
        -- constructor; [exact HS|].
           eapply Forall_impl; [exact HF|]. intros m (i & n' & Hi & _ & Hs' & _).
           simpl. lia.
      * destruct (IH (S pos) O) as [HF HS]. split; [|exact HS].
        eapply Forall_impl; [exact HF|]. intros m Hm.
        apply (found_at_shift r c) in Hm.
        destruct Hm as (i & n' & Hi & Hm & Hs' & He & Hg).
        exists i, n'. repeat split; auto; lia.
    + destruct (IH (S pos) k) as [HF HS]. split; [|exact HS].
      eapply Forall_impl; [exact HF|]. intros m Hm.
      now apply found_at_shift.
Qed.

(** Nothing is reported while the scan passes the last match, nor at
    the end of the text by a pattern that needs a character. *)
Lemma finditer_from_skip r s : forall pos skip,
  (length s <= skip)%nat -> sre_match r [] = None ->
  finditer_from r pos skip s = [].
Proof.
  induction s as [|c s IH]; intros pos skip Hl Hn.
  - destruct skip; simpl; [now rewrite Hn | reflexivity].
  - destruct skip as [|k]; simpl in *; [lia|]. apply IH; auto. lia.
Qed.

Lemma finditer_from_none r s : forall pos skip,
  (forall i, sre_match r (drop i s) = None) ->
  finditer_from r pos skip s = [].
Proof.
  induction s as [|c s IH]; intros pos skip Hn.
  - destruct skip; simpl; [|reflexivity].
    specialize (Hn O). simpl in Hn. now rewrite Hn.
  - destruct skip as [|k]; simpl.
    + pose proof (Hn O) as H0. simpl in H0. rewrite H0.
      apply IH. intros i. apply (Hn (S i)).
    + apply IH. intros i. apply (Hn (S i)).
Qed.

(** A pattern that matches the whole text at its start reports that
    one match. *)
Lemma finditer_whole r s :
  sre_match r s = Some (length s) -> sre_match r [] = None ->
  finditer r s = [ {| m_start := O; m_end := length s; group0 := s |} ].
Proof.
  intros Hm Hn. unfold finditer.
  destruct s as [|c s]; simpl in *; [congruence|].
  rewrite Hm. simpl. rewrite take_ge by lia.
  rewrite finditer_from_skip; auto. lia.
Qed.

(** ** Shape of the accepted strings *)

Lemma literal_map (l : text) :
  List.map literal l = List.map One (List.map N.eqb l).
Proof. now rewrite List.map_map. Qed.

(** A pattern that starts with single-character tests: the string
    starts with characters that pass them. *)
Lemma accepts_ones ps r u :
  accepts (List.map One ps ++ r) u ->
  exists b u', u = b ++ u' /\ Forall2 (fun p c => p c = true) ps b /\
               accepts r u'.
Proof.
  revert u. induction ps as [|p ps IH]; intros u H; simpl in H.
  - exists [], u. repeat split; auto.
  - inversion H as [|p' r' c u0 Hc Hu|]; subst.
    destruct (IH _ Hu) as (b & u' & -> & HF & Hr).
    exists (c :: b), u'. repeat split; auto.
Qed.

Lemma forallb_take (q : N -> bool) s : forall n,
  forallb q s = true -> forallb q (take n s) = true.
Proof.
  induction s as [|c s IH]; intros [|n] H; simpl in *; auto.
  apply andb_true_iff in H as [-> H]. simpl. auto.
Qed.

Lemma forallb_drop (q : N -> bool) s : forall n,
  forallb q s = true -> forallb q (drop n s) = true.
Proof.
  induction s as [|c s IH]; intros [|n] H; simpl in *; auto.
  apply andb_true_iff in H as [_ H]. auto.
Qed.

Lemma no_match_in_class (q : N -> bool) r :
  (forall u, accepts r u -> Exists (fun c => q c = false) u) ->
  forall s, forallb q s = true -> sre_match r s = None.
Proof.
  intros Hr s Hs. destruct (sre_match r s) as [n|] eqn:E; [|reflexivity].
  exfalso. apply sre_match_sound in E as [_ Hacc].
  apply Hr in Hacc. apply Exists_exists in Hacc as (c & Hin & Hc).
  pose proof (forallb_take q s n Hs) as Hq.
  rewrite forallb_forall in Hq. apply list_elem_of_In in Hin.
  rewrite (Hq c Hin) in Hc. discriminate.
Qed.

(** A literal prefix followed by one run of a class: on the prefix and
    a long enough run, the whole is matched. *)
Lemma sre_match_prefix_run lits p min tok :
  forallb p tok = true -> (min <= length tok)%nat ->
  sre_match (List.map literal lits ++ [Many p min]) (lits ++ tok)
  = Some (length lits + length tok)%nat.
Proof.
  intros Hp Hmin. induction lits as [|c lits IH]; simpl.
  - rewrite (count_all _ _ Hp).
    rewrite (backtrack_first _ _ _ _ O Hmin); [f_equal; lia|].
    reflexivity.
  - rewrite N.eqb_refl, IH. reflexivity.
Qed.

Lemma class_alnum_ascii c : class_alnum c = true -> c < 128 /\ c <> 13.
Proof.
  unfold class_alnum, in_range.
  rewrite !orb_true_iff, !andb_true_iff, !N.leb_le. lia.
Qed.

Lemma class_alnum_not_space c :
  class_alnum c = true -> unicode_isspace c = false.
Proof.
  intros H. apply not_true_iff_false. revert H.
  unfold class_alnum, unicode_isspace, in_range.
  rewrite !orb_true_iff, !andb_true_iff, !N.leb_le, !N.eqb_eq. lia.
Qed.

(** ** Decoding of ASCII content *)

Lemma utf8_decode_ascii (bs : list byte) :
  Forall (fun b => Byte.to_N b < 128) bs ->
  utf8_decode_ignore bs = List.map Byte.to_N bs.
Proof.
  induction 1 as [|b bs Hb _ IH]; [reflexivity|].
  simpl. apply N.ltb_lt in Hb. rewrite Hb. now f_equal.
Qed.

Lemma translate_newlines_id (t : text) :
  Forall (fun c => c <> 13) t -> translate_newlines t = t.
Proof.
  induction 1 as [|c t Hc _ IH]; [reflexivity|].
  simpl. apply N.eqb_neq in Hc. rewrite Hc. now f_equal.
Qed.

Lemma decode_text_ascii (bs : list byte) :
  Forall (fun c => c < 128 /\ c <> 13) (List.map Byte.to_N bs) ->
  decode_text bs = List.map Byte.to_N bs.
Proof.
  intros H. unfold decode_text.
  rewrite utf8_decode_ascii.
  - apply translate_newlines_id. eapply Forall_impl; [exact H|].
    simpl. tauto.
  - apply List.Forall_map in H. eapply Forall_impl; [exact H|].
    simpl. tauto.
Qed.

(** ** [scan_file] *)

Lemma fold_append {A B : Type} (f : A -> B) (l : list A) : forall acc,
  fold_left (fun acc x => acc ++ [f x]) l acc = acc ++ List.map f l.
Proof.
  induction l as [|x l IH]; intros acc; simpl.
  - now rewrite app_nil_r.
  - rewrite IH, <- app_assoc. reflexivity.
Qed.

Lemma scan_text_eq t :
  scan_text t = concat (List.map (pattern_findings t) _PATTERNS).
Proof.
  unfold scan_text, _PATTERNS, pattern_findings. simpl.
  rewrite !(fold_append (fun m => (_, group0 m))). simpl.
  rewrite app_nil_r, <- !app_assoc. reflexivity.
Qed.

Lemma scan_file_eq fs path :
  scan_file path fs =
  (Ok match fs_read_bytes fs path with
      | None => []
      | Some bs => scan_text (decode_text bs)
      end,
   [EvReadText path]).
Proof.
  unfold scan_file, bind, read_text, call, ret.
  destruct (fs_read_bytes fs path); reflexivity.
Qed.

Lemma finditer_located r t :
  (0 < min_length r)%nat -> Forall (located r t) (finditer r t).
Proof.
  intros Hmin. destruct (finditer_from_spec r t O O) as [HF _].
  eapply Forall_impl; [exact HF|].
  intros m (i & n & _ & Hm & Hs & He & Hg). simpl in *.
  destruct (sre_match_min_length _ _ _ Hm) as [H1 H2].
  rewrite length_drop in H2.
  unfold located. rewrite Hs, He.
  replace (i + n - i)%nat with n by lia.
  repeat split; auto; lia.
Qed.

Lemma patterns_min_length :
  Forall (fun p => (0 < min_length (snd p))%nat) _PATTERNS.
Proof. repeat constructor. Qed.

(** C5. For a readable file [scan_file] returns the findings grouped by
    pattern, in the order of [_PATTERNS]: the findings of the first
    pattern, then those of the second, and so on; within one pattern
    there is one finding per match, and the matches are non-empty
    substrings of the text at which the pattern matches, in text order,
    none overlapping the next. *)
Theorem scan_file_grouped_by_pattern fs path bs :
  fs_read_bytes fs path = Some bs ->
  fst (scan_file path fs)
  = Ok (concat (List.map (pattern_findings (decode_text bs)) _PATTERNS))
  /\ List.map fst _PATTERNS
     = [str "OpenAI secret"; str "OpenAI project token";
        str "Pinecone server key"; str "Generic bearer token"]
  /\ Forall (fun p =>
       in_order (finditer (snd p) (decode_text bs)) /\
       Forall (located (snd p) (decode_text bs))
         (finditer (snd p) (decode_text bs))) _PATTERNS.
Proof.
  intros Hr. rewrite scan_file_eq, Hr. simpl fst.
  rewrite scan_text_eq. split; [reflexivity|]. split; [reflexivity|].
  eapply Forall_impl; [exact patterns_min_length|].
  intros p Hp. split.
  - apply (finditer_from_spec (snd p) (decode_text bs) O O).
  - now apply finditer_located.
Qed.

Lemma scan_file_grouped_by_pattern_witness :
  fs_read_bytes fs_two_secrets [str "repo"; str "notes.txt"]
  = Some (list_byte_of_string
            "Bearer abcDEF1234567890ZZZZ0000 sk-AAAAAAAAAAAAAAAAAAAAAAAA")
  /\ fst (scan_file [str "repo"; str "notes.txt"] fs_two_secrets)
     = Ok [(str "OpenAI secret", str "sk-AAAAAAAAAAAAAAAAAAAAAAAA");
           (str "Generic bearer token",
            str "Bearer abcDEF1234567890ZZZZ0000")].
Proof.
  split; [reflexivity|].
  destruct (scan_file_grouped_by_pattern fs_two_secrets
              [str "repo"; str "notes.txt"] _ eq_refl) as [H _].
  rewrite H. vm_compute. reflexivity.
Defined.

(** ** An OpenAI secret alone in a file *)

Section OpenAISecret.
Variable tok : text.
Hypothesis tok_alnum : forallb class_alnum tok = true.

Let content : text := str "sk-" ++ tok.

Lemma alnum_suffix_no_match r :
  (forall u, accepts r u -> Exists (fun c => class_alnum c = false) u) ->
  sre_match r [] = None ->
  (forall h, In h (str "sk-") ->
     forall s, sre_match r (h :: s) = None) ->
  finditer r content = [].
Proof.
  intros Hacc Hnil Hhead. apply finditer_from_none. intros i.
  unfold content. change (str "sk-") with [115; 107; 45] in *.
  destruct i as [|[|[|i]]]; simpl.
  - apply Hhead. simpl. auto.
  - apply Hhead. simpl. auto.
  - apply Hhead. simpl. auto.
  - apply (no_match_in_class class_alnum); auto.
    now apply forallb_drop.
Qed.

Lemma no_project_token : finditer re_openai_project content = [].
Proof.
  apply alnum_suffix_no_match.
  - intros u Hu. unfold re_openai_project in Hu.
    rewrite literal_map in Hu.
    apply accepts_ones in Hu as (b & u' & -> & HF & _).
    change (str "proj-") with [112; 114; 111; 106; 45] in HF.
    simpl in HF.
    repeat match goal with
           | H : Forall2 _ (_ :: _) _ |- _ =>
               apply Forall2_cons_inv_l in H as (? & ? & ? & ? & ->)
           end.
    apply Exists_app. left.
    do 4 apply Exists_cons_tl. apply Exists_cons_hd.
    match goal with H : (45 =? _) = true |- _ =>
      apply N.eqb_eq in H; subst end. reflexivity.
  - reflexivity.
  - intros h Hh s. change (str "sk-") with [115; 107; 45] in Hh.
    simpl in Hh. destruct Hh as [<-|[<-|[<-|[]]]]; reflexivity.
Qed.

Lemma no_pinecone_key : finditer re_pinecone content = [].
Proof.
  apply alnum_suffix_no_match.
  - intros u Hu. unfold re_pinecone in Hu.
    rewrite literal_map in Hu.
    apply accepts_ones in Hu as (b & u' & -> & HF & _).
    change (str "pcsk_") with [112; 99; 115; 107; 95] in HF.
    simpl in HF.
    repeat match goal with
           | H : Forall2 _ (_ :: _) _ |- _ =>
               apply Forall2_cons_inv_l in H as (? & ? & ? & ? & ->)
           end.
    apply Exists_app. left.
    do 4 apply Exists_cons_tl. apply Exists_cons_hd.
    match goal with H : (95 =? _) = true |- _ =>
      apply N.eqb_eq in H; subst end. reflexivity.
  - reflexivity.
  - intros h Hh s. change (str "sk-") with [115; 107; 45] in Hh.
    simpl in Hh. destruct Hh as [<-|[<-|[<-|[]]]]; reflexivity.
Qed.

Lemma no_bearer_token : finditer re_bearer content = [].
Proof.
  apply alnum_suffix_no_match.
  - intros u Hu. unfold re_bearer in Hu.
    rewrite <- (List.map_map (fun x => literal_ignore x) One) in Hu.
    apply accepts_ones in Hu as (b & u' & -> & _ & Hu).
    apply Exists_app. right.
    inversion Hu as [| |p min r w u'' Hw Hmin _]; subst.
    destruct w as [|c w]; [simpl in Hmin; lia|].
    simpl in Hw. apply andb_true_iff in Hw as [Hc _].
    simpl. apply Exists_cons_hd.
    destruct (class_alnum c) eqn:E; [|reflexivity].
    apply class_alnum_not_space in E. congruence.
  - reflexivity.
  - intros h Hh s. change (str "sk-") with [115; 107; 45] in Hh.
    simpl in Hh. destruct Hh as [<-|[<-|[<-|[]]]]; reflexivity.
Qed.

Lemma one_openai_secret :
  (20 <= length tok)%nat ->
  finditer re_openai_secret content
  = [ {| m_start := O; m_end := length content; group0 := content |} ].
Proof.
  intros Hlen. apply finditer_whole; [|reflexivity].
  unfold re_openai_secret, content.
  rewrite sre_match_prefix_run; auto.
Qed.

Lemma scan_text_openai_secret :
  (20 <= length tok)%nat ->
  scan_text content = [(str "OpenAI secret", content)].
Proof.
  intros Hlen. rewrite scan_text_eq. unfold _PATTERNS, pattern_findings.
  simpl. rewrite one_openai_secret, no_project_token, no_pinecone_key,
    no_bearer_token by assumption.
  reflexivity.
Qed.
End OpenAISecret.

(** C7. A file whose whole content is [sk-] followed by exactly 24
    ASCII letters and digits: [scan_file] returns exactly one finding,
    labelled "OpenAI secret", whose snippet is the whole content; the
    snippet is shorter than 60 characters, so printing its first 60
    characters prints all of it. *)
Theorem scan_file_openai_secret fs path bs tok :
  fs_read_bytes fs path = Some bs ->
  List.map Byte.to_N bs = str "sk-" ++ tok ->
  length tok = 24%nat ->
  forallb class_alnum tok = true ->
  fst (scan_file path fs) = Ok [(str "OpenAI secret", str "sk-" ++ tok)]
  /\ take 60 (str "sk-" ++ tok) = str "sk-" ++ tok.
Proof.
  intros Hr Hbs Hlen Htok. split.
  - rewrite scan_file_eq, Hr. simpl fst. f_equal.
    rewrite decode_text_ascii, Hbs.
    + apply scan_text_openai_secret; auto. lia.
    + rewrite Hbs. apply Forall_app. split.
      * change (str "sk-") with [115; 107; 45].
        repeat constructor; lia.
      * apply Forall_forall. intros c Hc. apply class_alnum_ascii.
        rewrite forallb_forall in Htok. apply Htok.
        now apply list_elem_of_In.
  - apply take_ge. rewrite length_app. rewrite Hlen.
    change (str "sk-") with [115; 107; 45]. simpl. lia.
Qed.

Lemma scan_file_openai_secret_witness :
  fs_read_bytes fs_one_secret [str "repo"; str "key.txt"]
  = Some (list_byte_of_string "sk-AAAAAAAAAAAAAAAAAAAAAAAA")
  /\ forallb class_alnum (str "AAAAAAAAAAAAAAAAAAAAAAAA") = true
  /\ fst (scan_file [str "repo"; str "key.txt"] fs_one_secret)
  = Ok [(str "OpenAI secret", str "sk-AAAAAAAAAAAAAAAAAAAAAAAA")]
  /\ take 60 (str "sk-AAAAAAAAAAAAAAAAAAAAAAAA")
     = str "sk-AAAAAAAAAAAAAAAAAAAAAAAA".
Proof.
  split; [reflexivity|]. split; [reflexivity|].
  apply (scan_file_openai_secret fs_one_secret [str "repo"; str "key.txt"]
           (list_byte_of_string "sk-AAAAAAAAAAAAAAAAAAAAAAAA")
           (str "AAAAAAAAAAAAAAAAAAAAAAAA")); reflexivity.
Defined.

(** ** The traversal *)

Lemma relative_to_joinpath root rel :
  relative_to (joinpath root rel) root = Some rel.
Proof.
  induction root as [|r root IH]; simpl; [reflexivity|].
  destruct (decide (r = r)); [exact IH | contradiction].
Qed.

Lemma reached_incl fs root rels rel :
  In rel (reached fs root rels) -> In rel rels.
Proof.
  induction rels as [|r rels IH]; simpl; [tauto|].
  intros [H|H]; [now left|].
  destruct (fs_is_file fs (joinpath root r)); [|destruct H]. auto.
Qed.

Lemma reached_all fs root rels :
  walk_raises fs root rels = false -> reached fs root rels = rels.
Proof.
  induction rels as [|r rels IH]; simpl; [reflexivity|].
  destruct (fs_is_file fs (joinpath root r)); simpl; [|discriminate].
  intros H. now rewrite IH.
Qed.

Lemma walk_raises_false fs root rels :
  walk_raises fs root rels = false <->
  Forall (fun rel => fs_is_file fs (joinpath root rel) <> None) rels.
Proof.
  induction rels as [|r rels IH]; simpl.
  - split; [constructor|reflexivity].
  - rewrite Forall_cons, <- IH.
    destruct (fs_is_file fs (joinpath root r)); simpl.
    + split; [intros H; split; [discriminate|exact H]|tauto].
    + split; [discriminate|]. intros [H _]. contradiction.
Qed.

Section Traversal.
Context {St : Type}.
Variables (fs : FileSystem) (root : Path) (ign : gset text).
Variable yield : St -> Path -> M St.
Variable upd : St -> Path -> St.
Variable ytr : Path -> list Event.
Hypothesis yield_eq : forall acc p, yield acc p fs = (Ok (upd acc p), ytr p).

Lemma candidate_step_eq acc rel :
  candidate_step root ign yield acc (joinpath root rel) fs
  = (match fs_is_file fs (joinpath root rel) with
     | None => Raise OSError
     | Some _ =>
         Ok (if is_candidate fs root ign rel
             then upd acc (joinpath root rel) else acc)
     end,
     step_events fs root ign ytr rel).
Proof.
  unfold candidate_step, step_events, is_candidate, says_file, bind,
    is_file, stat_st_size, call, call_or_raise, ret.
  rewrite relative_to_joinpath.
  destruct (fs_is_file fs (joinpath root rel)) as [[|]|]; simpl;
    [|reflexivity|reflexivity].
  destruct (any_part_ignored ign rel); simpl; [reflexivity|].
  destruct (fs_st_size fs (joinpath root rel)) as [size|]; simpl;
    [|reflexivity].
  destruct (size >? size_limit)%Z; simpl; [reflexivity|].
  now rewrite yield_eq.
Qed.

Lemma for_each_candidate_step rels : forall acc,
  for_each (List.map (joinpath root) rels)
    (candidate_step root ign yield) acc fs
  = (if walk_raises fs root rels then Raise OSError
     else Ok (fold_left upd
                (List.map (joinpath root)
                   (List.filter (is_candidate fs root ign)
                      (reached fs root rels))) acc),
     flat_map (step_events fs root ign ytr) (reached fs root rels)).
Proof.
  induction rels as [|rel rels IH]; intros acc; [reflexivity|].
  simpl for_each. unfold bind at 1. rewrite candidate_step_eq.
  cbn [walk_raises existsb reached].
  destruct (fs_is_file fs (joinpath root rel)) as [b|] eqn:Hf.
  - rewrite IH. fold (walk_raises fs root rels). cbn [orb flat_map].
    destruct (walk_raises fs root rels); [reflexivity|].
    cbn [List.filter]. destruct (is_candidate fs root ign rel); reflexivity.
  - cbn [orb flat_map]. now rewrite app_nil_r.
Qed.
End Traversal.

Lemma fold_app_flat_map {A B : Type} (f : A -> list B) (l : list A) :
  forall acc, fold_left (fun acc x => acc ++ f x) l acc = acc ++ flat_map f l.
Proof.
  induction l as [|x l IH]; intros acc; simpl.
  - now rewrite app_nil_r.
  - rewrite IH, app_assoc. reflexivity.
Qed.

Lemma fold_findings (p : Path) (found : list (text * text)) :
  forall acc : list Finding,
  fold_left (fun findings '(label, snippet) =>
               findings ++ [(p, label, snippet)]) found acc
  = acc ++ List.map (fun '(label, snippet) => (p, label, snippet)) found.
Proof.
  induction found as [|[label snippet] found IH]; intros acc; simpl.
  - now rewrite app_nil_r.
  - rewrite IH, <- app_assoc. reflexivity.
Qed.

Lemma candidate_files_eq fs root exclude :
  candidate_files root exclude fs
  = (if walk_raises fs root (fs_rglob fs root) then Raise OSError
     else Ok (candidates fs root exclude),
     traversal_trace fs root exclude (fun _ => [])).
Proof.
  unfold candidate_files, iter_candidate_files, bind at 1, rglob, call.
  rewrite (for_each_candidate_step fs root _ _
             (fun acc p => acc ++ [p]) (fun _ => [])) by reflexivity.
  rewrite (fold_append (fun p => p)), List.map_id.
  destruct (walk_raises fs root (fs_rglob fs root)); reflexivity.
Qed.

Lemma collect_findings_eq fs root exclude :
  collect_findings root exclude fs
  = (if walk_raises fs root (fs_rglob fs root) then Raise OSError
     else Ok (flat_map (file_findings fs) (candidates fs root exclude)),
     traversal_trace fs root exclude (fun p => [EvReadText p])).
Proof.
  unfold collect_findings, iter_candidate_files, bind at 1, rglob, call.
  rewrite (for_each_candidate_step fs root _ _
             (fun acc p => acc ++ file_findings fs p)
             (fun p => [EvReadText p])).
  - rewrite fold_app_flat_map.
    destruct (walk_raises fs root (fs_rglob fs root)); reflexivity.
  - intros acc p. unfold bind. rewrite scan_file_eq. unfold ret.
    unfold file_findings. simpl. f_equal. f_equal.
    apply fold_findings.
Qed.

(** ** [main] *)

Lemma print_findings_eq fs (findings : list Finding) : forall u : unit,
  for_each findings (fun _ f => print Stderr (msg_finding f)) u fs
  = (Ok tt, List.map (fun f => EvPrint Stderr (msg_finding f)) findings).
Proof.
  induction findings as [|f findings IH]; intros []; [reflexivity|].
  simpl for_each. unfold bind at 1, print at 1, call. rewrite IH.
  reflexivity.
Qed.

Lemma main_eq args fs :
  let root := fs_resolve fs (arg_path args) in
  let findings := flat_map (file_findings fs)
                    (candidates fs root (arg_exclude args)) in
  main args fs =
  match fs_exists fs root with
  | None => (Raise OSError, [EvResolve (arg_path args); EvExists root])
  | Some false =>
      (Ok 2%Z,
       [EvResolve (arg_path args); EvExists root;
        EvPrint Stderr (msg_no_root root)])
  | Some true =>
      if walk_raises fs root (fs_rglob fs root) then
        (Raise OSError,
         EvResolve (arg_path args) :: EvExists root
         :: traversal_trace fs root (arg_exclude args)
              (fun p => [EvReadText p]))
      else
        (Ok match findings with [] => 0%Z | _ :: _ => 1%Z end,
         EvResolve (arg_path args) :: EvExists root
         :: traversal_trace fs root (arg_exclude args)
              (fun p => [EvReadText p])
         ++ report findings)
  end.
Proof.
  intros root findings. unfold main, bind at 1, resolve at 1, call.
  fold root. unfold bind at 1, exists_ at 1, call_or_raise.
  destruct (fs_exists fs root) as [[|]|]; cbn [negb];
    [|reflexivity|reflexivity].
  unfold bind at 1. rewrite collect_findings_eq. fold findings.
  destruct (walk_raises fs root (fs_rglob fs root)); [reflexivity|].
  destruct findings as [|f findings'] eqn:E.
  - reflexivity.
  - unfold bind at 1, print at 1, call.
    unfold bind at 1. rewrite print_findings_eq.
    reflexivity.
Qed.

(** ** What is yielded, found and read *)

Lemma in_candidates fs root exclude p :
  In p (candidates fs root exclude) <->
  exists rel, In rel (reached fs root (fs_rglob fs root)) /\
              p = joinpath root rel /\
              is_candidate fs root (ignore_set exclude) rel = true.
Proof.
  unfold candidates. rewrite List.in_map_iff. split.
  - intros (rel & <- & Hin). apply List.filter_In in Hin as [Hin Hc].
    exists rel. auto.
  - intros (rel & Hin & -> & Hc). exists rel. split; [reflexivity|].
    apply List.filter_In. auto.
Qed.

Lemma in_file_findings fs q (f : Finding) :
  In f (file_findings fs q) -> fst (fst f) = q.
Proof.
  unfold file_findings. rewrite List.in_map_iff.
  intros ([label snippet] & <- & _). reflexivity.
Qed.

Lemma in_findings_candidate fs cands p label snippet :
  In (p, label, snippet) (flat_map (file_findings fs) cands) -> In p cands.
Proof.
  rewrite List.in_flat_map. intros (q & Hq & Hf).
  apply in_file_findings in Hf. simpl in Hf. now subst.
Qed.

Lemma in_traversal_trace fs root exclude ytr ev :
  In ev (traversal_trace fs root exclude ytr) ->
  ev = EvRglob root \/
  exists rel, In rel (reached fs root (fs_rglob fs root)) /\
              In ev (step_events fs root (ignore_set exclude) ytr rel).
Proof.
  unfold traversal_trace. simpl. intros [<-|H]; [now left|right].
  now apply List.in_flat_map in H.
Qed.

Lemma read_event_candidate fs root exclude p :
  In (EvReadText p)
     (traversal_trace fs root exclude (fun p => [EvReadText p])) ->
  In p (candidates fs root exclude).
Proof.
  intros H. apply in_traversal_trace in H as [H|(rel & Hin & H)];
    [discriminate|].
  apply in_candidates. exists rel. unfold step_events in H.
  destruct H as [H|H]; [discriminate|].
  destruct (says_file fs (joinpath root rel)
            && negb (any_part_ignored (ignore_set exclude) rel));
    [|contradiction].
  destruct H as [H|H]; [discriminate|].
  destruct (is_candidate fs root (ignore_set exclude) rel);
    [|contradiction].
  destruct H as [[= ->]|[]]. auto.
Qed.

Lemma says_file_true fs p : says_file fs p = true <-> fs_is_file fs p = Some true.
Proof.
  unfold says_file. destruct (fs_is_file fs p) as [[|]|]; split;
    congruence.
Qed.

Lemma stat_event_not_ignored fs root exclude ytr p :
  (forall q, ~ In (EvStat p) (ytr q)) ->
  In (EvStat p) (traversal_trace fs root exclude ytr) ->
  exists rel, In rel (fs_rglob fs root) /\ p = joinpath root rel /\
    fs_is_file fs p = Some true /\
    any_part_ignored (ignore_set exclude) rel = false.
Proof.
  intros Hy H. apply in_traversal_trace in H as [H|(rel & Hin & H)];
    [discriminate|].
  apply reached_incl in Hin.
  exists rel. unfold step_events in H.
  destruct H as [H|H]; [discriminate|].
  destruct (says_file fs (joinpath root rel)) eqn:Hf;
    destruct (any_part_ignored (ignore_set exclude) rel) eqn:Hi;
    cbn [andb negb] in H; try (now destruct H).
  apply says_file_true in Hf.
  destruct H as [[= <-]|H]; [now repeat split|].
  destruct (is_candidate fs root (ignore_set exclude) rel);
    [|now destruct H].
  now apply Hy in H.
Qed.

Lemma is_candidate_size fs root ign rel :
  is_candidate fs root ign rel = true ->
  exists size, fs_st_size fs (joinpath root rel) = Some size /\
               (size <= size_limit)%Z.
Proof.
  unfold is_candidate. rewrite !andb_true_iff. intros [_ H].
  destruct (fs_st_size fs (joinpath root rel)) as [size|]; [|discriminate].
  exists size. split; [reflexivity|].
  apply negb_true_iff in H. rewrite Z.gtb_ltb in H.
  apply Z.ltb_ge in H. exact H.
Qed.

Lemma candidate_files_ok fs root exclude cands walk :
  candidate_files root exclude fs = (Ok cands, walk) ->
  walk_raises fs root (fs_rglob fs root) = false /\
  cands = candidates fs root exclude.
Proof.
  rewrite candidate_files_eq.
  destruct (walk_raises fs root (fs_rglob fs root)); [discriminate|].
  intros [= <- _]. auto.
Qed.

Lemma collect_findings_ok fs root exclude findings scan :
  collect_findings root exclude fs = (Ok findings, scan) ->
  walk_raises fs root (fs_rglob fs root) = false /\
  findings = flat_map (file_findings fs) (candidates fs root exclude) /\
  scan = traversal_trace fs root exclude (fun p => [EvReadText p]).
Proof.
  rewrite collect_findings_eq.
  destruct (walk_raises fs root (fs_rglob fs root)); [discriminate|].
  intros [= <- <-]. auto.
Qed.

Lemma snd_collect_findings fs root exclude :
  snd (collect_findings root exclude fs)
  = traversal_trace fs root exclude (fun p => [EvReadText p]).
Proof. now rewrite collect_findings_eq. Qed.

(** ** The exit status *)




(** ** Files too large or that cannot be stat'ed *)

(** C2, where the code departs from it.  A file in a directory that
    may be listed but not searched: [stat] fails on it with a
    permission error.  The call [path.is_file()] of line 45 stats the
    file first, outside the [try] of lines 54-58, and raises; the
    traversal stops there, [main] ends with the exception and the
    files after it in the walk are never looked at. *)
Lemma unsearchable_file_aborts :
  main {| arg_path := str "."; arg_exclude := [] |} fs_unsearchable
  = (Raise OSError,
     [EvResolve (str "."); EvExists [str "repo"]; EvRglob [str "repo"];
      EvIsFile [str "repo"; str "a.txt"];
      EvStat [str "repo"; str "a.txt"];
      EvReadText [str "repo"; str "a.txt"];
      EvIsFile [str "repo"; str "locked"; str "key.txt"]])
  /\ fs_st_size fs_unsearchable [str "repo"; str "locked"; str "key.txt"]
     = None
  /\ exit_status
       (fst (main {| arg_path := str "."; arg_exclude := [] |}
               fs_unsearchable)) = 1%Z
  /\ In [str "z.txt"] (fs_rglob fs_unsearchable [str "repo"])
  /\ ~ In (EvIsFile [str "repo"; str "z.txt"])
        (snd (main {| arg_path := str "."; arg_exclude := [] |}
                fs_unsearchable)).
Proof.
  split; [vm_compute; reflexivity|]. split; [vm_compute; reflexivity|].
  split; [vm_compute; reflexivity|].
  split; [do 2 right; left; reflexivity|].
  intros H. vm_compute in H.
  repeat (destruct H as [H|H]; [discriminate H|]). destruct H.
Qed.

Lemma any_part_ignored_true ign rel part :
  In part rel -> part ∈ ign -> any_part_ignored ign rel = true.
Proof.
  intros Hin Hp. unfold any_part_ignored. apply List.existsb_exists.
  exists part. split; [exact Hin|]. now apply bool_decide_eq_true.
Qed.

Lemma elem_of_ignore_set part exclude :
  part ∈ ignore_set exclude <-> part ∈ _DEFAULT_IGNORES \/ In part exclude.
Proof.
  unfold ignore_set. rewrite elem_of_union, elem_of_list_to_set.
  now rewrite list_elem_of_In.
Qed.

Lemma is_candidate_not_ignored fs root ign rel :
  is_candidate fs root ign rel = true -> any_part_ignored ign rel = false.
Proof.
  unfold is_candidate. rewrite !andb_true_iff. intros [[_ H] _].
  now apply negb_true_iff in H.
Qed.

(** ** Ignored components *)

(** C3. A file one of whose components, relative to the root, is equal
    to a member of the ignore set (a built-in default or an [--exclude]
    argument) is not yielded by the traversal, is neither stat'ed nor
    read, and has no finding, whatever it contains: so it is in every
    walk that runs to its end, and no run, not even one that an
    [is_file] call aborts, stats or reads it. *)
Theorem ignored_component_skipped args fs rel part :
  In part rel ->
  part ∈ _DEFAULT_IGNORES \/ In part (arg_exclude args) ->
  let root := fs_resolve fs (arg_path args) in
  let p := joinpath root rel in
  (walk_answers fs root ->
   exists cands walk findings scan,
     candidate_files root (arg_exclude args) fs = (Ok cands, walk)
     /\ ~ In p cands
     /\ collect_findings root (arg_exclude args) fs = (Ok findings, scan)
     /\ (forall label snippet, ~ In (p, label, snippet) findings)
     /\ ~ In (EvStat p) scan
     /\ ~ In (EvReadText p) scan)
  /\ ~ In (EvStat p) (snd (collect_findings root (arg_exclude args) fs))
  /\ ~ In (EvReadText p)
         (snd (collect_findings root (arg_exclude args) fs)).
Proof.
  intros Hin Hign root p.
  assert (Hi : any_part_ignored (ignore_set (arg_exclude args)) rel = true).
  { apply (any_part_ignored_true _ _ part Hin).
    now apply elem_of_ignore_set. }
  assert (Hno : ~ In p (candidates fs root (arg_exclude args))).
  { intros H. apply in_candidates in H as (rel' & _ & Hp & Hc).
    apply app_inv_head in Hp. subst rel'.
    apply is_candidate_not_ignored in Hc. congruence. }
  assert (Hstat : ~ In (EvStat p)
                      (traversal_trace fs root (arg_exclude args)
                         (fun p => [EvReadText p]))).
  { intros H.
    apply stat_event_not_ignored in H as (rel' & _ & Hp & _ & Hc).
    - apply app_inv_head in Hp. subst rel'. congruence.
    - intros q [H'|[]]. discriminate. }
  assert (Hread : ~ In (EvReadText p)
                      (traversal_trace fs root (arg_exclude args)
                         (fun p => [EvReadText p]))).
  { intros H. now apply read_event_candidate in H. }
  rewrite snd_collect_findings. split; [|split; assumption].
  intros Hw. apply walk_raises_false in Hw.
  rewrite candidate_files_eq, collect_findings_eq, Hw.
  do 4 eexists. split; [reflexivity|]. split; [exact Hno|].
  split; [reflexivity|]. split; [|split; assumption].
  intros label snippet Hf. now apply in_findings_candidate in Hf.
Qed.

Lemma ignored_component_skipped_witness :
  In (str "build") [str "build"; str "out.txt"] /\
  (str "build" ∈ _DEFAULT_IGNORES \/ In (str "build") [str "vendor"]) /\
  walk_answers fs_ignored [str "repo"] /\
  candidate_files [str "repo"] [str "vendor"] fs_ignored
  = (Ok [[str "repo"; str "rebuild"; str "out.txt"]],
     [EvRglob [str "repo"];
      EvIsFile [str "repo"; str "build"; str "out.txt"];
      EvIsFile [str "repo"; str "rebuild"; str "out.txt"];
      EvStat [str "repo"; str "rebuild"; str "out.txt"];
      EvIsFile [str "repo"; str "vendor"; str "lib.txt"]]) /\
  (exists cands walk findings scan,
     candidate_files [str "repo"] [str "vendor"] fs_ignored
     = (Ok cands, walk)
     /\ ~ In [str "repo"; str "build"; str "out.txt"] cands
     /\ collect_findings [str "repo"] [str "vendor"] fs_ignored
        = (Ok findings, scan)
     /\ (forall label snippet,
           ~ In ([str "repo"; str "build"; str "out.txt"], label, snippet)
               findings)
     /\ ~ In (EvStat [str "repo"; str "build"; str "out.txt"]) scan
     /\ ~ In (EvReadText [str "repo"; str "build"; str "out.txt"]) scan) /\
  ~ In (EvStat [str "repo"; str "build"; str "out.txt"])
      (snd (collect_findings [str "repo"] [str "vendor"] fs_ignored)) /\
  ~ In (EvReadText [str "repo"; str "build"; str "out.txt"])
      (snd (collect_findings [str "repo"] [str "vendor"] fs_ignored)).
Proof.
  assert (H1 : In (str "build") [str "build"; str "out.txt"])
    by (left; reflexivity).
  assert (H2 : str "build" ∈ _DEFAULT_IGNORES \/ In (str "build") [str "vendor"]).
  { left. apply (bool_decide_unpack _). vm_compute. exact I. }
  assert (H3 : walk_answers fs_ignored [str "repo"])
    by (repeat constructor; discriminate).
  destruct (ignored_component_skipped
              {| arg_path := str "."; arg_exclude := [str "vendor"] |}
              fs_ignored [str "build"; str "out.txt"] (str "build") H1 H2)
    as (Hc & Hs & Hr).
  split; [exact H1|]. split; [exact H2|]. split; [exact H3|].
  split; [vm_compute; reflexivity|].
  split; [exact (Hc H3)|]. split; [exact Hs|exact Hr].
Defined.

(** Equality of components, not containment: the file under [rebuild/]
    is yielded although its directory name contains [build]. *)
Example rebuild_is_scanned :
  fst (candidate_files [str "repo"] [str "vendor"] fs_ignored)
  = Ok [[str "repo"; str "rebuild"; str "out.txt"]].
Proof. vm_compute. reflexivity. Qed.

(** ** The default entry [scripts/__pycache__] *)

Lemma default_ignores_split :
  _DEFAULT_IGNORES = component_ignores ∪ {[ str "scripts/__pycache__" ]}.
Proof. unfold _DEFAULT_IGNORES, component_ignores. set_solver. Qed.

Lemma separator_free_not_pycache part :
  has_separator part = false -> part <> str "scripts/__pycache__".
Proof. intros H ->. vm_compute in H. discriminate. Qed.

Lemma any_part_ignored_ext (A B : gset text) rel :
  Forall (fun part => part ∈ A <-> part ∈ B) rel ->
  any_part_ignored A rel = any_part_ignored B rel.
Proof.
  induction 1 as [|part rel Hp _ IH]; [reflexivity|].
  simpl. rewrite IH. f_equal. now apply bool_decide_ext.
Qed.

Lemma pycache_entry_inert exclude rel :
  Forall (fun part => has_separator part = false) rel ->
  any_part_ignored (ignore_set exclude) rel
  = any_part_ignored (component_ignores ∪ list_to_set exclude) rel.
Proof.
  intros H. apply any_part_ignored_ext.
  eapply Forall_impl; [exact H|]. intros part Hp. simpl.
  apply separator_free_not_pycache in Hp.
  unfold ignore_set. rewrite default_ignores_split.
  rewrite !elem_of_union, elem_of_singleton. tauto.
Qed.

(** C10. The default entry [scripts/__pycache__] holds a separator, so
    no path component is equal to it and it never makes the traversal
    skip a file: for components without separator the ignore test
    gives what it gives with the six other defaults and the [--exclude]
    arguments alone, and a listed file is yielded exactly when it
    passes the traversal's tests against those.  A file below
    [scripts/__pycache__/] is ignored only if [scripts] or
    [__pycache__] is an [--exclude] argument or a component below them
    is ignored. *)
Theorem pycache_entry_never_matches fs root exclude rel :
  Forall (fun part => has_separator part = false) rel ->
  any_part_ignored (ignore_set exclude) rel
  = any_part_ignored (component_ignores ∪ list_to_set exclude) rel
  /\ (walk_answers fs root ->
      exists cands walk,
        candidate_files root exclude fs = (Ok cands, walk) /\
        (In (joinpath root rel) cands <->
         In rel (fs_rglob fs root) /\
         is_candidate fs root (component_ignores ∪ list_to_set exclude) rel
         = true))
  /\ (any_part_ignored (ignore_set exclude)
        (str "scripts" :: str "__pycache__" :: rel) = true <->
      In (str "scripts") exclude \/ In (str "__pycache__") exclude \/
      any_part_ignored (ignore_set exclude) rel = true).
Proof.
  intros Hsep. pose proof (pycache_entry_inert exclude rel Hsep) as Hinert.
  split; [exact Hinert|]. split.
  - intros Hw. apply walk_raises_false in Hw.
    rewrite candidate_files_eq, Hw. do 2 eexists.
    split; [reflexivity|].
    rewrite in_candidates, (reached_all _ _ _ Hw).
    unfold is_candidate. rewrite <- Hinert. split.
    + intros (rel' & Hin & Hp & Hc). apply app_inv_head in Hp. subst rel'.
      auto.
    + intros [Hin Hc]. exists rel. auto.
  - cbn [any_part_ignored existsb]. rewrite !orb_true_iff.
    rewrite !bool_decide_eq_true, !elem_of_ignore_set.
    assert (H1 : str "scripts" ∉ _DEFAULT_IGNORES).
    { apply (bool_decide_unpack _). vm_compute. exact I. }
    assert (H2 : str "__pycache__" ∉ _DEFAULT_IGNORES).
    { apply (bool_decide_unpack _). vm_compute. exact I. }
    unfold any_part_ignored. tauto.
Qed.

Lemma pycache_entry_never_matches_witness :
  Forall (fun part => has_separator part = false)
    [str "scripts"; str "__pycache__"; str "scan.pyc"] /\
  walk_answers fs_pycache [str "repo"] /\
  fst (collect_findings [str "repo"] [] fs_pycache)
  = Ok [([str "repo"; str "scripts"; str "__pycache__"; str "scan.pyc"],
         str "OpenAI secret", str "sk-AAAAAAAAAAAAAAAAAAAAAAAA")] /\
  fst (candidate_files [str "repo"] [] fs_pycache)
  = Ok [[str "repo"; str "scripts"; str "__pycache__"; str "scan.pyc"]] /\
  exists cands walk,
    candidate_files [str "repo"] [] fs_pycache = (Ok cands, walk) /\
    (In [str "repo"; str "scripts"; str "__pycache__"; str "scan.pyc"] cands
     <-> In [str "scripts"; str "__pycache__"; str "scan.pyc"]
           (fs_rglob fs_pycache [str "repo"]) /\
         is_candidate fs_pycache [str "repo"]
           (component_ignores ∪ list_to_set [])
           [str "scripts"; str "__pycache__"; str "scan.pyc"] = true).
Proof.
  assert (H : Forall (fun part => has_separator part = false)
                [str "scripts"; str "__pycache__"; str "scan.pyc"])
    by (repeat constructor).
  assert (Hw : walk_answers fs_pycache [str "repo"])
    by (repeat constructor; discriminate).
  split; [exact H|]. split; [exact Hw|]. split; [vm_compute; reflexivity|].
  split; [vm_compute; reflexivity|].
  exact (proj1 (proj2 (pycache_entry_never_matches fs_pycache [str "repo"] []
                         [str "scripts"; str "__pycache__"; str "scan.pyc"]
                         H)) Hw).
Defined.

(** ** Unreadable and undecodable files *)

Lemma byte_bounded (b : byte) : Byte.to_N b <= 255.
Proof. destruct b; vm_compute; discriminate. Qed.

Ltac decode_cases :=
  repeat (first
    [ match goal with
      | |- context [N.ltb ?a ?b] => destruct (N.ltb_spec a b)
      | |- context [N.leb ?a ?b] => destruct (N.leb_spec a b)
      | |- context [N.eqb ?a ?b] => destruct (N.eqb_spec a b)
      | |- context [match ?l with [] => _ | _ :: _ => _ end] =>
          is_var l;
          let b := fresh "b" in
          destruct l as [|b l]; [|pose proof (byte_bounded b)]
      end ];
    cbn [andb orb negb]; try (exfalso; lia));
  cbn [length] in *.

(** Linear arithmetic with division and remainder by constants. *)
Ltac div_lia := zify; Z.to_euclidean_division_equations; lia.

Lemma cons_eq_inv {A} (a b : A) (l l' : list A) :
  a :: l = b :: l' -> a = b /\ l = l'.
Proof. intros [= -> ->]. auto. Qed.

Ltac list_eqs :=
  repeat match goal with
  | H : _ :: _ = _ :: _ |- _ =>
      let H1 := fresh "Hhd" in
      apply cons_eq_inv in H; destruct H as [H1 H]
  | H : [] = _ :: _ |- _ => discriminate H
  | H : _ :: _ = [] |- _ => discriminate H
  end.

Ltac encode_cases c :=
  unfold utf8_encode;
  destruct (N.ltb_spec c 128); [|destruct (N.ltb_spec c 2048);
    [|destruct (N.ltb_spec c 65536)]]; cbn [app].

(** No encoding is the start of another: the bytes tell where a
    character ends and which one it is. *)
Lemma utf8_encode_prefix_free c1 c2 r1 r2 :
  scalar_value c1 -> scalar_value c2 ->
  utf8_encode c1 ++ r1 = utf8_encode c2 ++ r2 -> c1 = c2 /\ r1 = r2.
Proof.
  intros [H1 H1'] [H2 H2'].
  encode_cases c1; encode_cases c2; intros Hq; list_eqs;
    first [ split; [div_lia | assumption] | exfalso; div_lia ].
Qed.

Lemma lossy_decoding_inv bs t :
  lossy_decoding bs t ->
  (bs = [] /\ t = [])
  \/ (exists c rest t',
        scalar_value c /\ bs = utf8_encode c ++ rest /\
        lossy_decoding rest t' /\ t = c :: t')
  \/ (exists b rest,
        bs = b :: rest /\
        (forall c tail, scalar_value c -> b :: rest <> utf8_encode c ++ tail)
        /\ lossy_decoding rest t).
Proof.
  destruct 1 as [|c bs rest t Hc Hbs H|b rest t Hno H].
  - left. auto.
  - right. left. exists c, rest, t. auto.
  - right. right. exists b, rest. auto.
Qed.

Lemma utf8_encode_not_nil c rest : utf8_encode c ++ rest <> [].
Proof. encode_cases c; discriminate. Qed.

(** The specification's lossy decoding leaves no choice. *)
Lemma lossy_decoding_functional bs t1 t2 :
  lossy_decoding bs t1 -> lossy_decoding bs t2 -> t1 = t2.
Proof.
  intros H1. revert t2.
  induction H1 as [|c bs rest t Hc Hbs _ IH|b rest t Hno _ IH];
    intros t2 H2;
    apply lossy_decoding_inv in H2
      as [[E ->]|[(c' & rest' & t' & Hc' & E & H' & ->)
                 |(b' & rest' & E & Hno' & H')]].
  - reflexivity.
  - symmetry in E. now apply utf8_encode_not_nil in E.
  - discriminate E.
  - rewrite Hbs in E. now apply utf8_encode_not_nil in E.
  - rewrite Hbs in E. apply utf8_encode_prefix_free in E as [-> ->]; auto.
    f_equal. auto.
  - rewrite E in Hbs. destruct (Hno' c rest Hc Hbs).
  - discriminate E.
  - destruct (Hno c' rest' Hc' E).
  - injection E as <- <-. auto.
Qed.

Ltac no_prefix :=
  let c := fresh "c" in
  let tail := fresh "tail" in
  let Hc := fresh "Hc" in
  let Hc' := fresh "Hc'" in
  let H := fresh "Heq" in
  intros c tail [Hc Hc'] H; symmetry in H; revert H;
  encode_cases c; let Hq := fresh "Hq" in intros Hq; list_eqs; div_lia.

Ltac lossy_step IH :=
  lazymatch goal with
  | |- lossy_decoding [] [] => apply lossy_nil
  | |- lossy_decoding _ (utf8_decode_ignore ?s) =>
      first [ apply (IH s); cbn [length] in *; lia
            | apply lossy_drop; [no_prefix | lossy_step IH] ]
  | |- lossy_decoding _ (?c :: utf8_decode_ignore ?s) =>
      apply (lossy_char c _ (List.map Byte.to_N s));
      [ unfold scalar_value; lia
      | encode_cases c; try (exfalso; lia); repeat f_equal; div_lia
      | apply (IH s); cbn [length] in *; lia ]
  | |- lossy_decoding (_ :: _) [] =>
      apply lossy_drop; [no_prefix | lossy_step IH]
  end.

Lemma utf8_decode_ignore_lossy_aux : forall n (bs : list byte),
  (length bs <= n)%nat ->
  lossy_decoding (List.map Byte.to_N bs) (utf8_decode_ignore bs).
Proof.
  induction n as [|n IH]; intros bs Hlen.
  - destruct bs; [constructor|simpl in Hlen; lia].
  - destruct bs as [|b1 s1]; [constructor|].
    pose proof (byte_bounded b1).
    cbn [utf8_decode_ignore]. unfold is_continuation, in_range.
    decode_cases.
    all: cbn [List.map].
    all: lossy_step IH.
Qed.

(** The decoder of [read_text] does the specification's lossy
    decoding, and is the only function that does. *)
Lemma utf8_decode_ignore_lossy (bs : list byte) (t : text) :
  lossy_decoding (List.map Byte.to_N bs) t <-> t = utf8_decode_ignore bs.
Proof.
  pose proof (utf8_decode_ignore_lossy_aux (length bs) bs (Nat.le_refl _))
    as H.
  split; [|intros ->; exact H].
  intros Ht. exact (lossy_decoding_functional _ _ _ Ht H).
Qed.

(** C6. [scan_file] never raises.  When the file cannot be opened or
    read it returns the empty list, and its only effect is the read
    attempt: nothing is printed.  When the file is read, whatever its
    bytes are, [scan_file] returns the findings of one text [t], after
    newline translation, and [t] is the lossy decoding of the bytes
    and the only one: going through the bytes, every well-formed
    encoding of a scalar value is decoded to that character, and where
    no well-formed encoding starts (a stray continuation byte, a lead
    byte with a wrong or missing continuation, an overlong form, an
    encoded surrogate, a value above U+10FFFF) one byte is dropped and
    decoding goes on at the next byte. *)
Theorem scan_file_tolerates_errors fs path :
  (fs_read_bytes fs path = None ->
   scan_file path fs = (Ok [], [EvReadText path]))
  /\ (forall bs,
        fs_read_bytes fs path = Some bs ->
        exists t,
          lossy_decoding (List.map Byte.to_N bs) t
          /\ (forall t', lossy_decoding (List.map Byte.to_N bs) t' -> t' = t)
          /\ scan_file path fs
             = (Ok (scan_text (translate_newlines t)), [EvReadText path]))
  /\ exists found, scan_file path fs = (Ok found, [EvReadText path]).
Proof.
  rewrite scan_file_eq. split; [|split].
  - intros ->. reflexivity.
  - intros bs ->. exists (utf8_decode_ignore bs).
    split; [now apply utf8_decode_ignore_lossy|].
    split; [intros t'; apply utf8_decode_ignore_lossy|reflexivity].
  - eexists. reflexivity.
Qed.

Lemma scan_file_tolerates_errors_witness :
  fs_read_bytes fs_broken [str "repo"; str "locked.txt"] = None
  /\ scan_file [str "repo"; str "locked.txt"] fs_broken
     = (Ok [], [EvReadText [str "repo"; str "locked.txt"]])
  /\ fs_read_bytes fs_garbled [str "repo"; str "garbled.bin"]
     = Some garbled_bytes
  /\ exists t,
       lossy_decoding (List.map Byte.to_N garbled_bytes) t
       /\ (forall t',
             lossy_decoding (List.map Byte.to_N garbled_bytes) t' -> t' = t)
       /\ scan_file [str "repo"; str "garbled.bin"] fs_garbled
          = (Ok (scan_text (translate_newlines t)),
             [EvReadText [str "repo"; str "garbled.bin"]]).
Proof.
  destruct (scan_file_tolerates_errors fs_broken
              [str "repo"; str "locked.txt"]) as (Hnone & _ & _).
  destruct (scan_file_tolerates_errors fs_garbled
              [str "repo"; str "garbled.bin"]) as (_ & Hsome & _).
  split; [reflexivity|]. split; [exact (Hnone eq_refl)|].
  split; [reflexivity|]. exact (Hsome garbled_bytes eq_refl).
Defined.

(** The stray byte is dropped, so the secret around it is found. *)
Example junk_is_scanned :
  fst (scan_file [str "repo"; str "junk.bin"] fs_broken)
  = Ok [(str "OpenAI secret", str "sk-AAAAAAAAAAAAAAAAAAAAAAAA")].
Proof. vm_compute. reflexivity. Qed.

(** Each malformed sequence of [garbled_bytes] is dropped and the
    well-formed character after the secret is kept. *)
Example garbled_is_scanned :
  utf8_decode_ignore garbled_bytes
  = str "sk-AAAAAAAAAAAAAAAAAAAAAAAA" ++ [233]
  /\ fst (scan_file [str "repo"; str "garbled.bin"] fs_garbled)
     = Ok [(str "OpenAI secret", str "sk-AAAAAAAAAAAAAAAAAAAAAAAA")].
Proof. split; vm_compute; reflexivity. Qed.

(** ** The report *)

Lemma stream_text_app dst tr1 tr2 :
  stream_text dst (tr1 ++ tr2) = stream_text dst tr1 ++ stream_text dst tr2.
Proof.
  induction tr1 as [|ev tr1 IH]; [reflexivity|].
  destruct ev; simpl; auto.
  destruct dst0, dst; simpl; auto; rewrite IH, <- app_assoc; reflexivity.
Qed.

Lemma stream_text_silent dst tr :
  forallb (fun ev => negb (is_print ev)) tr = true -> stream_text dst tr = [].
Proof.
  induction tr as [|ev tr IH]; [reflexivity|].
  simpl. intros H. apply andb_true_iff in H as [Hev H].
  destruct ev; simpl in *; auto. discriminate.
Qed.

Lemma traversal_trace_silent fs root exclude :
  forallb (fun ev => negb (is_print ev))
    (traversal_trace fs root exclude (fun p => [EvReadText p])) = true.
Proof.
  unfold traversal_trace. simpl.
  induction (reached fs root (fs_rglob fs root)) as [|rel rels IH];
    [reflexivity|].
  simpl. rewrite forallb_app, IH, andb_true_r.
  unfold step_events.
  destruct (says_file fs (joinpath root rel)
            && negb (any_part_ignored (ignore_set exclude) rel));
    [|reflexivity].
  destruct (is_candidate fs root (ignore_set exclude) rel); reflexivity.
Qed.

Lemma stream_text_findings (findings : list Finding) :
  stream_text Stderr
    (List.map (fun f => EvPrint Stderr (msg_finding f)) findings)
  = flat_map finding_line findings
  /\ stream_text Stdout
       (List.map (fun f => EvPrint Stderr (msg_finding f)) findings)
     = [].
Proof.
  induction findings as [|[[p label] snippet] findings [IH1 IH2]];
    [split; reflexivity|].
  split; [|exact IH2].
  cbn [List.map stream_text flat_map]. rewrite IH1.
  unfold msg_finding, finding_line. rewrite <- !app_assoc. reflexivity.
Qed.

Lemma stream_text_report (findings : list Finding) :
  stream_text Stderr (report findings)
  = match findings with [] => [] | _ :: _ => stderr_report findings end
  /\ stream_text Stdout (report findings)
     = match findings with [] => msg_clean ++ [10] | _ :: _ => [] end.
Proof.
  destruct findings as [|f findings]; [split; reflexivity|].
  destruct (stream_text_findings (f :: findings)) as [H1 H2].
  unfold report. split.
  - cbn [stream_text]. rewrite stream_text_app, H1.
    reflexivity.
  - cbn [stream_text]. rewrite stream_text_app, H2. reflexivity.
Qed.

(** C8, as the code has it.  When the root exists and no [is_file]
    call of the walk raises, the scan returns its findings and [main]
    returns; when there are findings, [main] writes to the error
    stream the header line, then for each finding two spaces followed
    by [<path>: <label> -> <first 60 characters of the snippet>], then
    an empty line and the closing sentence, and writes nothing to
    standard output; when the scan collected nothing it writes the one
    success line to standard output and nothing to the error stream. *)
Theorem main_report args fs :
  let root := fs_resolve fs (arg_path args) in
  fs_exists fs root = Some true ->
  walk_answers fs root ->
  exists code tr findings scan,
    collect_findings root (arg_exclude args) fs = (Ok findings, scan)
    /\ main args fs = (Ok code, tr)
    /\ stream_text Stderr tr
       = match findings with [] => [] | _ :: _ => stderr_report findings end
    /\ stream_text Stdout tr
       = match findings with [] => msg_clean ++ [10] | _ :: _ => [] end.
Proof.
  intros root He Hw. apply walk_raises_false in Hw.
  pose proof (main_eq args fs) as Hm. cbv zeta in Hm.
  fold root in Hm. rewrite He, Hw in Hm.
  rewrite collect_findings_eq, Hw.
  set (findings := flat_map (file_findings fs)
                     (candidates fs root (arg_exclude args))) in *.
  destruct (stream_text_report findings) as [H1 H2].
  do 4 eexists. split; [reflexivity|]. split; [exact Hm|].
  cbn [stream_text].
  rewrite !stream_text_app,
    !(stream_text_silent _ _ (traversal_trace_silent fs root _)).
  split; assumption.
Qed.

Lemma main_report_witness :
  fs_exists fs_one_secret (fs_resolve fs_one_secret (str ".")) = Some true /\
  walk_answers fs_one_secret [str "repo"] /\
  collect_findings [str "repo"] [] fs_one_secret
  = (Ok [([str "repo"; str "key.txt"], str "OpenAI secret",
          str "sk-AAAAAAAAAAAAAAAAAAAAAAAA")],
     [EvRglob [str "repo"]; EvIsFile [str "repo"; str "key.txt"];
      EvStat [str "repo"; str "key.txt"];
      EvReadText [str "repo"; str "key.txt"]]) /\
  exists code tr findings scan,
    collect_findings [str "repo"] [] fs_one_secret = (Ok findings, scan)
    /\ main {| arg_path := str "."; arg_exclude := [] |} fs_one_secret
       = (Ok code, tr)
    /\ stream_text Stderr tr
       = match findings with [] => [] | _ :: _ => stderr_report findings end
    /\ stream_text Stdout tr
       = match findings with [] => msg_clean ++ [10] | _ :: _ => [] end.
Proof.
  assert (Hw : walk_answers fs_one_secret [str "repo"])
    by (repeat constructor; discriminate).
  split; [reflexivity|]. split; [exact Hw|].
  split; [vm_compute; reflexivity|].
  exact (main_report {| arg_path := str "."; arg_exclude := [] |}
           fs_one_secret eq_refl Hw).
Defined.

(** C8 as stated fails: on the tree with the one secret the error
    stream is not the header, the line
    [/repo/key.txt: OpenAI secret -> sk-...] and the closing sentence;
    the finding is indented and an empty line precedes the closing
    sentence. *)
Lemma main_report_counterexample :
  collect_findings [str "repo"] [] fs_one_secret
  = (Ok [([str "repo"; str "key.txt"], str "OpenAI secret",
          str "sk-AAAAAAAAAAAAAAAAAAAAAAAA")],
     [EvRglob [str "repo"]; EvIsFile [str "repo"; str "key.txt"];
      EvStat [str "repo"; str "key.txt"];
      EvReadText [str "repo"; str "key.txt"]])
  /\ stream_text Stderr
       (snd (main {| arg_path := str "."; arg_exclude := [] |} fs_one_secret))
     <> spec_stderr_report
          [([str "repo"; str "key.txt"], str "OpenAI secret",
            str "sk-AAAAAAAAAAAAAAAAAAAAAAAA")]
  /\ stream_text Stderr
       (snd (main {| arg_path := str "."; arg_exclude := [] |} fs_one_secret))
     = str "Detected potential secrets:" ++ [10]
       ++ str "  /repo/key.txt: OpenAI secret -> sk-AAAAAAAAAAAAAAAAAAAAAAAA"
       ++ [10; 10]
       ++ str "Remove these values or move them to secure storage before proceeding."
       ++ [10].
Proof.
  split; [vm_compute; reflexivity|]. split.
  - intros H. vm_compute in H. discriminate.
  - vm_compute. reflexivity.
Qed.

(** ** Determinism *)

Lemma determined_ret {A : Type} (a : A) : determined (ret a).
Proof. intros fs1 fs2 _. reflexivity. Qed.

Lemma determined_raise {A : Type} (e : exn) : determined (@raise A e).
Proof. intros fs1 fs2 _. reflexivity. Qed.

Lemma determined_call {A : Type} ev (answer : FileSystem -> A) :
  (forall fs1 fs2, answers_agree fs1 fs2 ev -> answer fs2 = answer fs1) ->
  determined (call ev answer).
Proof.
  intros Ha fs1 fs2 H. unfold call in *. simpl in H.
  apply Forall_cons in H as [H _]. now rewrite (Ha fs1 fs2 H).
Qed.

Lemma determined_call_or_raise {A : Type} ev
    (answer : FileSystem -> option A) :
  (forall fs1 fs2, answers_agree fs1 fs2 ev -> answer fs2 = answer fs1) ->
  determined (call_or_raise ev answer).
Proof.
  intros Ha fs1 fs2 H. unfold call_or_raise in *.
  assert (Hev : answers_agree fs1 fs2 ev).
  { destruct (answer fs1); simpl in H; now apply Forall_cons in H as [H _]. }
  now rewrite (Ha fs1 fs2 Hev).
Qed.

Lemma determined_bind {A B : Type} (m : M A) (k : A -> M B) :
  determined m -> (forall a, determined (k a)) -> determined (bind m k).
Proof.
  intros Hm Hk fs1 fs2 H. unfold bind in *.
  destruct (m fs1) as [[a|e] t1] eqn:E1.
  - destruct (k a fs1) as [r t2] eqn:E2. simpl in H.
    apply Forall_app in H as [H1 H2].
    rewrite (Hm fs1 fs2) by (now rewrite E1). rewrite E1.
    rewrite (Hk a fs1 fs2) by (now rewrite E2). now rewrite E2.
  - simpl in H. rewrite (Hm fs1 fs2) by (now rewrite E1). now rewrite E1.
Qed.

Lemma determined_for_each {A St : Type} (body : St -> A -> M St) xs :
  (forall acc x, determined (body acc x)) ->
  forall acc, determined (for_each xs body acc).
Proof.
  intros Hb. induction xs as [|x xs IH]; intros acc; simpl.
  - apply determined_ret.
  - apply determined_bind; auto.
Qed.

Create HintDb determined.
#[local] Hint Resolve determined_ret determined_raise determined_bind
  determined_for_each : determined.

Lemma determined_resolve p : determined (resolve p).
Proof. apply determined_call. intros fs1 fs2 H. simpl in H. congruence. Qed.

Lemma determined_exists p : determined (exists_ p).
Proof.
  apply determined_call_or_raise. intros fs1 fs2 H. simpl in H. congruence.
Qed.

Lemma determined_rglob root : determined (rglob root).
Proof. apply determined_call. intros fs1 fs2 H. simpl in H. congruence. Qed.

Lemma determined_is_file p : determined (is_file p).
Proof.
  apply determined_call_or_raise. intros fs1 fs2 H. simpl in H. congruence.
Qed.

Lemma determined_stat p : determined (stat_st_size p).
Proof. apply determined_call. intros fs1 fs2 H. simpl in H. congruence. Qed.

Lemma determined_read_text p : determined (read_text p).
Proof. apply determined_call. intros fs1 fs2 H. simpl in H. congruence. Qed.

Lemma determined_print dst s : determined (print dst s).
Proof. apply determined_call. reflexivity. Qed.

#[local] Hint Resolve determined_resolve determined_exists determined_rglob
  determined_is_file determined_stat determined_read_text determined_print
  : determined.

Lemma determined_scan_file p : determined (scan_file p).
Proof.
  unfold scan_file. apply determined_bind; auto with determined.
  intros [t|]; auto with determined.
Qed.

Lemma determined_candidate_step {St : Type} root ign
    (yield : St -> Path -> M St) acc path :
  (forall acc p, determined (yield acc p)) ->
  determined (candidate_step root ign yield acc path).
Proof.
  intros Hy. unfold candidate_step.
  apply determined_bind; auto with determined.
  intros f. destruct (negb f); auto with determined.
  destruct (relative_to path root) as [relative|]; auto with determined.
  destruct (any_part_ignored ign relative); auto with determined.
  apply determined_bind; auto with determined.
  intros [size|]; auto with determined.
  destruct (size >? size_limit)%Z; auto with determined.
Qed.

Lemma determined_iter_candidate_files {St : Type} root extra
    (yield : St -> Path -> M St) acc :
  (forall acc p, determined (yield acc p)) ->
  determined (iter_candidate_files root extra yield acc).
Proof.
  intros Hy. unfold iter_candidate_files.
  apply determined_bind; auto with determined.
  intros paths. apply determined_for_each.
  intros acc' x. now apply determined_candidate_step.
Qed.

Lemma determined_collect_findings root exclude :
  determined (collect_findings root exclude).
Proof.
  apply determined_iter_candidate_files. intros acc p.
  apply determined_bind; [apply determined_scan_file|].
  intros found. apply determined_ret.
Qed.

Lemma determined_main args : determined (main args).
Proof.
  unfold main. apply determined_bind; auto with determined.
  intros root. apply determined_bind; auto with determined.
  intros e. destruct (negb e).
  - apply determined_bind; auto with determined.
  - apply determined_bind; [apply determined_collect_findings|].
    intros [|f findings].
    + apply determined_bind; auto with determined.
    + apply determined_bind; auto 8 with determined.
Qed.

(** C9. A run is determined by its arguments and by what the file
    system answers: on a file system that gives the same answers to the
    calls of a first run, a second run with the same arguments returns
    the same exit status, makes the same calls and prints the same
    lines, and its scan collects the same findings. *)
Theorem main_deterministic args fs1 fs2 :
  Forall (answers_agree fs1 fs2) (snd (main args fs1)) ->
  main args fs2 = main args fs1
  /\ (fs_exists fs1 (fs_resolve fs1 (arg_path args)) = Some true ->
      collect_findings (fs_resolve fs2 (arg_path args)) (arg_exclude args) fs2
      = collect_findings (fs_resolve fs1 (arg_path args)) (arg_exclude args)
          fs1).
Proof.
  intros H. split; [now apply determined_main|].
  intros He. pose proof (main_eq args fs1) as Hm. cbv zeta in Hm.
  rewrite He in Hm. rewrite Hm in H.
  assert (H' : fs_resolve fs1 (arg_path args) = fs_resolve fs2 (arg_path args)
               /\ Forall (answers_agree fs1 fs2)
                    (traversal_trace fs1 (fs_resolve fs1 (arg_path args))
                       (arg_exclude args) (fun p => [EvReadText p]))).
  { destruct (walk_raises fs1 (fs_resolve fs1 (arg_path args))
                (fs_rglob fs1 (fs_resolve fs1 (arg_path args))));
      cbn [snd] in H; rewrite !Forall_cons in H.
    - destruct H as (Hres & _ & H). auto.
    - rewrite Forall_app in H. destruct H as (Hres & _ & H & _). auto. }
  destruct H' as [Hres Htr]. rewrite <- Hres.
  apply determined_collect_findings. now rewrite collect_findings_eq.
Qed.

Lemma main_deterministic_witness :
  Forall (answers_agree fs_ignored fs_ignored')
    (snd (main {| arg_path := str "."; arg_exclude := [] |} fs_ignored))
  /\ main {| arg_path := str "."; arg_exclude := [] |} fs_ignored'
     = main {| arg_path := str "."; arg_exclude := [] |} fs_ignored.
Proof.
  assert (H : Forall (answers_agree fs_ignored fs_ignored')
                (snd (main {| arg_path := str "."; arg_exclude := [] |}
                        fs_ignored))).
  { vm_compute. repeat (constructor; [first [reflexivity | exact I]|]).
    constructor. }
  split; [exact H|].
  exact (proj1 (main_deterministic _ fs_ignored fs_ignored' H)).
Defined.

(** ** The bearer pattern *)

Ltac split_cmp :=
  repeat (match goal with
          | |- context [N.leb ?a ?b] => destruct (N.leb_spec a b)
          | |- context [N.eqb ?a ?b] => destruct (N.eqb_spec a b)
          | H : context [N.leb ?a ?b] |- _ => destruct (N.leb_spec a b)
          | H : context [N.eqb ?a ?b] |- _ => destruct (N.eqb_spec a b)
          end; try (exfalso; lia); cbn [andb orb negb] in *).

Lemma literal_ignore_anycase x c :
  In x (str "bearer") -> literal_ignore x c = letter_anycase x c.
Proof.
  intros Hx. assert (H : x = 98 \/ x = 101 \/ x = 97 \/ x = 114).
  { vm_compute in Hx. intuition congruence. }
  assert (Hlow : unicode_tolower x = x)
    by (destruct H as [-> | [-> | [-> | ->]]]; reflexivity).
  unfold literal_ignore. rewrite Hlow.
  unfold letter_anycase, unicode_tolower, in_range.
  split_cmp; try reflexivity; exfalso; lia.
Qed.

Lemma class_token_ignore_unicode c :
  class_token_ignore c = class_token_unicode c.
Proof.
  unfold class_token_ignore, class_token_unicode, class_token, class_alnum,
    unicode_tolower, in_range.
  cbv zeta. destruct (N.leb_spec 65 c); destruct (N.leb_spec c 90);
    cbn [andb orb]; split_cmp; try reflexivity; exfalso; lia.
Qed.

Lemma class_token_not_space c :
  class_token_ignore c = true -> unicode_isspace c = false.
Proof.
  rewrite class_token_ignore_unicode. intros H.
  apply not_true_iff_false. revert H.
  unfold class_token_unicode, class_token, class_alnum, unicode_isspace,
    in_range.
  rewrite !orb_true_iff, !andb_true_iff, !N.leb_le, !N.eqb_eq. lia.
Qed.

Lemma starts_with_length lit xs : forall s rest,
  starts_with lit xs s = Some rest ->
  length s = (length xs + length rest)%nat.
Proof.
  induction xs as [|x xs IH]; intros s rest; simpl.
  - now intros [= ->].
  - destruct s as [|c s]; [discriminate|].
    destruct (lit x c); [|discriminate].
    intros H. apply IH in H. simpl. lia.
Qed.

Lemma starts_with_ext lit1 lit2 xs :
  (forall x c, In x xs -> lit1 x c = lit2 x c) ->
  forall s, starts_with lit1 xs s = starts_with lit2 xs s.
Proof.
  induction xs as [|x xs IH]; intros Hl s; [reflexivity|].
  simpl. destruct s as [|c s]; [reflexivity|].
  rewrite (Hl x c) by (now left).
  destruct (lit2 x c); [|reflexivity].
  apply IH. intros x' c' Hx. apply Hl. now right.
Qed.

(** A pattern that starts with literals: the matcher and the accepted
    strings, through [starts_with]. *)
Lemma accepts_lits lit xs r : forall u,
  accepts (List.map (fun x => One (lit x)) xs ++ r) u ->
  exists u', starts_with lit xs u = Some u' /\ accepts r u'.
Proof.
  induction xs as [|x xs IH]; intros u H; simpl in *.
  - exists u. auto.
  - inversion H as [|p r' c u0 Hc Hu|]; subst.
    destruct (IH _ Hu) as (u' & Hs & Hr).
    exists u'. rewrite Hc. auto.
Qed.

Lemma sre_match_lits lit xs r : forall s rest n,
  starts_with lit xs s = Some rest ->
  sre_match r rest = Some n ->
  sre_match (List.map (fun x => One (lit x)) xs ++ r) s
  = Some (length xs + n)%nat.
Proof.
  induction xs as [|x xs IH]; intros s rest n; simpl.
  - now intros [= ->].
  - destruct s as [|c s]; [discriminate|].
    destruct (lit x c); [|discriminate].
    intros Hs Hr. now rewrite (IH _ _ _ Hs Hr).
Qed.

(** The last two items of the bearer pattern, generally: a run of
    [space], then a run of [tok] that no [space] character starts. *)
Section TwoRuns.
Variables space tok : N -> bool.
Hypothesis disjoint : forall c, tok c = true -> space c = false.

Lemma accepts_two_runs u :
  accepts [Many space 1; Many tok 20] u ->
  (1 <= count space u)%nat /\
  (20 <= length (drop (count space u) u))%nat /\
  forallb tok (drop (count space u) u) = true.
Proof.
  intros H.
  inversion H as [| |p1 min1 r1 w u1 Hw Hlw Hu1]; subst.
  inversion Hu1 as [| |p2 min2 r2 t u2 Ht Hlt Hu2]; subst.
  inversion Hu2; subst. rewrite app_nil_r.
  assert (Hc : count space (w ++ t) = length w).
  { apply count_app_stop; [exact Hw|].
    destruct t as [|c t]; [exact I|].
    simpl in Ht. apply andb_true_iff in Ht as [Hc _]. now apply disjoint. }
  rewrite Hc, drop_app_length. repeat split; auto.
Qed.

Lemma sre_match_two_runs s :
  (1 <= count space s)%nat ->
  (20 <= length (drop (count space s) s))%nat ->
  forallb tok (drop (count space s) s) = true ->
  sre_match [Many space 1; Many tok 20] s = Some (length s).
Proof.
  intros Hw Hlen Htok. simpl.
  pose proof (count_le space s) as Hle.
  rewrite (backtrack_first _ _ _ _ (length (drop (count space s) s)) Hw).
  - f_equal. rewrite length_drop. lia.
  - rewrite (count_all _ _ Htok).
    rewrite (backtrack_first _ _ _ _ O Hlen); [f_equal; lia|reflexivity].
Qed.
End TwoRuns.

Lemma in_finditer r t m :
  In m (finditer r t) ->
  exists i n, sre_match r (drop i t) = Some n /\ group0 m = take n (drop i t).
Proof.
  intros H. destruct (finditer_from_spec r t O O) as [HF _].
  rewrite List.Forall_forall in HF.
  destruct (HF m H) as (i & n & _ & Hm & _ & _ & Hg). eauto.
Qed.

Lemma forallb_pointwise (p q : N -> bool) (l : text) :
  (forall c, p c = q c) -> forallb p l = forallb q l.
Proof.
  intros H. induction l as [|c l IH]; [reflexivity|].
  simpl. now rewrite H, IH.
Qed.

Lemma code_bearer_shape_eq s :
  code_bearer_shape s
  = bearer_shape literal_ignore unicode_isspace class_token_ignore s.
Proof.
  unfold code_bearer_shape, bearer_shape.
  rewrite (starts_with_ext letter_anycase literal_ignore)
    by (intros x c Hx; symmetry; now apply literal_ignore_anycase).
  destruct (starts_with literal_ignore (str "bearer") s) as [rest|];
    [|reflexivity].
  cbv zeta. f_equal. apply forallb_pointwise. intros c.
  symmetry. apply class_token_ignore_unicode.
Qed.

Lemma accepts_bearer_shape u :
  accepts re_bearer u -> code_bearer_shape u = true.
Proof.
  intros H. rewrite code_bearer_shape_eq. unfold re_bearer in H.
  apply accepts_lits in H as (u' & Hs & Hr).
  unfold bearer_shape. rewrite Hs. cbv zeta.
  destruct (accepts_two_runs _ _ class_token_not_space _ Hr)
    as (H1 & H2 & H3).
  rewrite H3. apply Nat.leb_le in H1, H2. now rewrite H1, H2.
Qed.

Lemma bearer_shape_match s :
  code_bearer_shape s = true -> sre_match re_bearer s = Some (length s).
Proof.
  rewrite code_bearer_shape_eq. unfold bearer_shape, re_bearer.
  destruct (starts_with literal_ignore (str "bearer") s) as [rest|] eqn:Hs;
    [|discriminate].
  cbv zeta. rewrite !andb_true_iff, !Nat.leb_le. intros [[H1 H2] H3].
  rewrite (sre_match_lits _ _ _ _ rest (length rest) Hs).
  - f_equal. apply starts_with_length in Hs. lia.
  - apply (sre_match_two_runs _ _ _ H1 H2 H3).
Qed.

(** C4, as the code has it.  The strings the bearer pattern reports are
    exactly those made of the word [bearer] in any letter case, one or
    more characters of the class [\s] (tab, line feed and the other
    white space, not only the space character), and 20 or more
    characters of [[A-Za-z0-9-_]] or of the four letters that
    [re.IGNORECASE] adds to it.  The file that holds
    [Bearer abcDEF1234567890ZZZZ0000] gives that one finding. *)
Theorem bearer_pattern_matches s :
  ((exists t m, In m (finditer re_bearer t) /\ group0 m = s)
   <-> code_bearer_shape s = true)
  /\ fst (scan_file [str "repo"; str "curl.sh"] fs_bearer)
     = Ok [(str "Generic bearer token",
            str "Bearer abcDEF1234567890ZZZZ0000")].
Proof.
  split; [|vm_compute; reflexivity]. split.
  - intros (t & m & Hin & <-).
    apply in_finditer in Hin as (i & n & Hm & ->).
    apply sre_match_sound in Hm as [_ Hacc].
    now apply accepts_bearer_shape.
  - intros Hs.
    exists s, {| m_start := O; m_end := length s; group0 := s |}.
    split; [|reflexivity].
    rewrite (finditer_whole re_bearer s (bearer_shape_match s Hs) eq_refl).
    left. reflexivity.
Qed.

(** C4 as stated fails: [bearer], a tab and twenty [A] are reported,
    and so are [bearer], a space and twenty Kelvin signs (U+212A);
    neither is of the stated shape. *)
Lemma bearer_pattern_counterexample :
  (exists t m, In m (finditer re_bearer t) /\
     group0 m = str "bearer" ++ [9] ++ str "AAAAAAAAAAAAAAAAAAAA")
  /\ spec_bearer_shape (str "bearer" ++ [9] ++ str "AAAAAAAAAAAAAAAAAAAA")
     = false
  /\ (exists t m, In m (finditer re_bearer t) /\
        group0 m = str "bearer " ++ repeat 8490 20)
  /\ spec_bearer_shape (str "bearer " ++ repeat 8490 20) = false.
Proof.
  split; [|split; [vm_compute; reflexivity|split; [|vm_compute; reflexivity]]].
  - exists (str "bearer" ++ [9] ++ str "AAAAAAAAAAAAAAAAAAAA"),
      {| m_start := O; m_end := 27;
         group0 := str "bearer" ++ [9] ++ str "AAAAAAAAAAAAAAAAAAAA" |}.
    split; [vm_compute; left; reflexivity|reflexivity].
  - exists (str "bearer " ++ repeat 8490 20),
      {| m_start := O; m_end := 27;
         group0 := str "bearer " ++ repeat 8490 20 |}.
    split; [vm_compute; left; reflexivity|reflexivity].
Qed.

(** * Further properties *)

(** ** Nothing that matches is missed *)

Lemma finditer_from_covers r :
  (0 < min_length r)%nat ->
  forall s pos skip i n,
    (skip <= i)%nat -> sre_match r (drop i s) = Some n ->
    exists m, In m (finditer_from r pos skip s) /\
              (m_start m <= pos + i < m_end m)%nat.
Proof.
  intros Hmin. induction s as [|c s IH]; intros pos skip i n Hi Hm.
  - rewrite drop_nil in Hm. apply sre_match_min_length in Hm.
    simpl in Hm. lia.
  - destruct skip as [|k]; simpl.
    + destruct (sre_match r (c :: s)) as [n0|] eqn:E.
      * pose proof (sre_match_min_length _ _ _ E) as Hn0.
        destruct (Nat.lt_ge_cases i n0) as [Hlt|Hge].
        -- eexists. split; [left; reflexivity|]. simpl. lia.
        -- destruct i as [|i]; [lia|]. simpl in Hm.
           destruct (IH (S pos) (n0 - 1)%nat i n) as (m & Hin & Hr);
             [lia|exact Hm|].
           exists m. split; [right; exact Hin|]. lia.
      * destruct i as [|i]; [simpl in Hm; congruence|]. simpl in Hm.
        destruct (IH (S pos) O i n) as (m & Hin & Hr); [lia|exact Hm|].
        exists m. split; [exact Hin|]. lia.
    + destruct i as [|i]; [lia|]. simpl in Hm.
      destruct (IH (S pos) k i n) as (m & Hin & Hr); [lia|exact Hm|].
      exists m. split; [exact Hin|]. lia.
Qed.

Lemma in_scan_text t label snippet :
  In (label, snippet) (scan_text t) <->
  exists re m, In (label, re) _PATTERNS /\ In m (finditer re t) /\
               group0 m = snippet.
Proof.
  rewrite scan_text_eq, List.in_concat. split.
  - intros (l & Hl & Hin). apply List.in_map_iff in Hl as ([lb re] & <- & Hp).
    unfold pattern_findings in Hin. simpl in Hin.
    apply List.in_map_iff in Hin as (m & [= <- <-] & Hm). eauto.
  - intros (re & m & Hp & Hm & <-).
    exists (pattern_findings t (label, re)). split.
    + apply List.in_map_iff. eauto.
    + unfold pattern_findings. simpl. apply List.in_map_iff. eauto.
Qed.

Lemma patterns_positive label re :
  In (label, re) _PATTERNS -> (0 < min_length re)%nat.
Proof.
  intros H. pose proof patterns_min_length as HF.
  rewrite List.Forall_forall in HF. apply (HF _ H).
Qed.

(** X1. Wherever a pattern of [_PATTERNS] matches in the text of a
    readable file, at whatever offset, a match reported by [finditer]
    covers that offset and [scan_file] returns its finding under the
    pattern's label. *)
Theorem scan_file_reports_every_occurrence fs path bs label re i n :
  fs_read_bytes fs path = Some bs ->
  In (label, re) _PATTERNS ->
  sre_match re (drop i (decode_text bs)) = Some n ->
  exists found m,
    fst (scan_file path fs) = Ok found /\
    In m (finditer re (decode_text bs)) /\
    (m_start m <= i < m_end m)%nat /\
    In (label, group0 m) found.
Proof.
  intros Hr Hp Hm. rewrite scan_file_eq, Hr.
  destruct (finditer_from_covers re (patterns_positive _ _ Hp)
              (decode_text bs) O O i n (Nat.le_0_l i) Hm) as (m & Hin & Hc).
  exists (scan_text (decode_text bs)), m.
  split; [reflexivity|]. split; [exact Hin|]. split; [exact Hc|].
  apply in_scan_text. eauto.
Qed.

Lemma scan_file_reports_every_occurrence_witness :
  fs_read_bytes fs_two_secrets [str "repo"; str "notes.txt"]
  = Some (list_byte_of_string
            "Bearer abcDEF1234567890ZZZZ0000 sk-AAAAAAAAAAAAAAAAAAAAAAAA")
  /\ In (str "OpenAI secret", re_openai_secret) _PATTERNS
  /\ sre_match re_openai_secret
       (drop 32 (decode_text
                   (list_byte_of_string
                      "Bearer abcDEF1234567890ZZZZ0000 sk-AAAAAAAAAAAAAAAAAAAAAAAA")))
     = Some 27%nat
  /\ exists found m,
       fst (scan_file [str "repo"; str "notes.txt"] fs_two_secrets) = Ok found
       /\ In m (finditer re_openai_secret
                  (decode_text
                     (list_byte_of_string
                        "Bearer abcDEF1234567890ZZZZ0000 sk-AAAAAAAAAAAAAAAAAAAAAAAA")))
       /\ (m_start m <= 32 < m_end m)%nat
       /\ In (str "OpenAI secret", group0 m) found.
Proof.
  assert (H2 : In (str "OpenAI secret", re_openai_secret) _PATTERNS)
    by (left; reflexivity).
  split; [reflexivity|]. split; [exact H2|]. split; [vm_compute; reflexivity|].
  apply (scan_file_reports_every_occurrence fs_two_secrets
           [str "repo"; str "notes.txt"] _ _ _ 32%nat 27%nat eq_refl H2).
  vm_compute. reflexivity.
Defined.

(** ** The key patterns report whole tokens *)

Lemma count_stops p s : stops_at p s (count p s).
Proof.
  unfold stops_at. induction s as [|c s IH]; simpl; [exact I|].
  destruct (p c) eqn:E; simpl; [exact IH | exact E].
Qed.

Lemma sre_match_prefix_run_inv lits p min : forall s n,
  sre_match (List.map literal lits ++ [Many p min]) s = Some n ->
  exists s', s = lits ++ s' /\ n = (length lits + count p s')%nat /\
             (min <= count p s')%nat.
Proof.
  induction lits as [|c lits IH]; intros s n; simpl.
  - intros H. exists s.
    destruct (Nat.lt_ge_cases (count p s) min) as [Hlt|Hge].
    + rewrite backtrack_short in H by exact Hlt. discriminate.
    + rewrite (backtrack_first _ _ _ _ O Hge) in H by reflexivity.
      injection H as <-. repeat split; auto; lia.
  - destruct s as [|c' s]; [discriminate|].
    destruct (N.eqb_spec c c') as [<-|]; [|discriminate].
    destruct (sre_match (List.map literal lits ++ [Many p min]) s)
      as [n'|] eqn:E; [|discriminate].
    intros [= <-]. destruct (IH _ _ E) as (s' & -> & -> & Hmin).
    exists s'. repeat split; auto.
Qed.

Lemma finditer_whole_token prefix t :
  Forall (whole_token prefix t)
    (finditer (List.map literal prefix ++ [Many class_alnum 20]) t).
Proof.
  destruct (finditer_from_spec
              (List.map literal prefix ++ [Many class_alnum 20]) t O O)
    as [HF _].
  eapply Forall_impl; [exact HF|].
  intros m (i & n & _ & Hm & Hs & He & Hg). simpl in Hs, He.
  apply sre_match_prefix_run_inv in Hm as (s' & Hd & -> & Hmin).
  pose proof (count_le class_alnum s') as Hle.
  exists (take (count class_alnum s') s'). repeat split.
  - rewrite Hg, Hd. rewrite take_app.
    rewrite take_ge by lia. f_equal. f_equal. lia.
  - now apply count_take.
  - rewrite length_take. lia.
  - unfold stops_at. rewrite He.
    rewrite <- drop_drop, Hd, drop_app_add. apply count_stops.
Qed.

(** X2. Every match of the three key patterns is the literal prefix
    ([sk-], [proj-] or [pcsk_]) followed by the whole run of ASCII
    letters and digits that follows it in the text: 20 or more of
    them, and the character after the match, if there is one, is not a
    letter or digit. *)
Theorem key_patterns_report_whole_tokens t :
  Forall (whole_token (str "sk-") t) (finditer re_openai_secret t)
  /\ Forall (whole_token (str "proj-") t) (finditer re_openai_project t)
  /\ Forall (whole_token (str "pcsk_") t) (finditer re_pinecone t).
Proof.
  repeat split; apply finditer_whole_token.
Qed.

(** ** The exit status, end to end *)



(** ** What the traversal yields *)

Lemma is_candidate_explicit fs root ign rel :
  is_candidate fs root ign rel
  = says_file fs (joinpath root rel)
    && negb (any_part_ignored ign rel)
    && match fs_st_size fs (joinpath root rel) with
       | Some size => (size <=? 2097152)%Z
       | None => false
       end.
Proof.
  unfold is_candidate. f_equal.
  destruct (fs_st_size fs (joinpath root rel)) as [size|]; [|reflexivity].
  rewrite Z.gtb_ltb. symmetry. apply Z.leb_antisym.
Qed.


(** X5. An entry that is not a regular file (a directory, say) is not
    yielded, is neither stat'ed nor read, and has no finding. *)
Theorem non_file_skipped args fs p :
  fs_is_file fs p = Some false ->
  let root := fs_resolve fs (arg_path args) in
  (walk_answers fs root ->
   exists cands walk findings scan,
     candidate_files root (arg_exclude args) fs = (Ok cands, walk)
     /\ ~ In p cands
     /\ collect_findings root (arg_exclude args) fs = (Ok findings, scan)
     /\ (forall label snippet, ~ In (p, label, snippet) findings)
     /\ ~ In (EvStat p) scan
     /\ ~ In (EvReadText p) scan)
  /\ ~ In (EvStat p) (snd (collect_findings root (arg_exclude args) fs))
  /\ ~ In (EvReadText p)
         (snd (collect_findings root (arg_exclude args) fs)).
Proof.
  intros Hf root.
  assert (Hno : ~ In p (candidates fs root (arg_exclude args))).
  { intros H. apply in_candidates in H as (rel & _ & -> & Hc).
    rewrite is_candidate_explicit, !andb_true_iff in Hc.
    destruct Hc as [[Hc _] _]. apply says_file_true in Hc. congruence. }
  assert (Hstat : ~ In (EvStat p)
                      (traversal_trace fs root (arg_exclude args)
                         (fun p => [EvReadText p]))).
  { intros H.
    apply stat_event_not_ignored in H as (rel & _ & _ & Hc & _).
    - congruence.
    - intros q [H'|[]]. discriminate. }
  assert (Hread : ~ In (EvReadText p)
                      (traversal_trace fs root (arg_exclude args)
                         (fun p => [EvReadText p]))).
  { intros H. now apply read_event_candidate in H. }
  rewrite snd_collect_findings. split; [|split; assumption].
  intros Hw. apply walk_raises_false in Hw.
  rewrite candidate_files_eq, collect_findings_eq, Hw.
  do 4 eexists. split; [reflexivity|]. split; [exact Hno|].
  split; [reflexivity|]. split; [|split; assumption].
  intros label snippet Hin. now apply in_findings_candidate in Hin.
Qed.

Lemma non_file_skipped_witness :
  fs_is_file fs_dirs [str "repo"; str "src"] = Some false /\
  walk_answers fs_dirs [str "repo"] /\
  fst (candidate_files [str "repo"] [] fs_dirs)
  = Ok [[str "repo"; str "README"];
        [str "repo"; str "src"; str "main.swift"]] /\
  (exists cands walk findings scan,
     candidate_files [str "repo"] [] fs_dirs = (Ok cands, walk)
     /\ ~ In [str "repo"; str "src"] cands
     /\ collect_findings [str "repo"] [] fs_dirs = (Ok findings, scan)
     /\ (forall label snippet,
           ~ In ([str "repo"; str "src"], label, snippet) findings)
     /\ ~ In (EvStat [str "repo"; str "src"]) scan
     /\ ~ In (EvReadText [str "repo"; str "src"]) scan) /\
  ~ In (EvStat [str "repo"; str "src"])
      (snd (collect_findings [str "repo"] [] fs_dirs)) /\
  ~ In (EvReadText [str "repo"; str "src"])
      (snd (collect_findings [str "repo"] [] fs_dirs)).
Proof.
  assert (Hw : walk_answers fs_dirs [str "repo"])
    by (repeat constructor; discriminate).
  destruct (non_file_skipped {| arg_path := str "."; arg_exclude := [] |}
              fs_dirs [str "repo"; str "src"] eq_refl)
    as (Hc & Hs & Hr).
  split; [reflexivity|]. split; [exact Hw|].
  split; [vm_compute; reflexivity|].
  split; [exact (Hc Hw)|]. split; [exact Hs|exact Hr].
Defined.

(** X6. The findings [main] collects are, for each yielded file in the
    order of the walk, what [scan_file] returns for it, in that order,
    each with the path of the file; the scan raises only when the
    traversal does. *)
Theorem collect_findings_in_walk_order fs root exclude :
  fst (collect_findings root exclude fs)
  = match fst (candidate_files root exclude fs) with
    | Ok cands =>
        Ok (flat_map
              (fun p =>
                 match fst (scan_file p fs) with
                 | Ok found =>
                     List.map (fun '(label, snippet) => (p, label, snippet))
                       found
                 | Raise _ => []
                 end) cands)
    | Raise e => Raise e
    end.
Proof.
  rewrite collect_findings_eq, candidate_files_eq. cbn [fst].
  destruct (walk_raises fs root (fs_rglob fs root)); [reflexivity|].
  f_equal. apply List.flat_map_ext. intros p. rewrite scan_file_eq.
  reflexivity.
Qed.

(** ** The [--exclude] arguments *)

Lemma any_part_ignored_mono (A B : gset text) (rel : Path) :
  (forall part, part ∈ A -> part ∈ B) ->
  any_part_ignored A rel = true -> any_part_ignored B rel = true.
Proof.
  intros Hsub. unfold any_part_ignored. rewrite !List.existsb_exists.
  intros (part & Hin & Hp). exists part. split; [exact Hin|].
  apply bool_decide_eq_true. apply bool_decide_eq_true in Hp. auto.
Qed.

Lemma is_candidate_anti (fs : FileSystem) (root : Path)
    (A B : gset text) (rel : Path) :
  (forall part, part ∈ A -> part ∈ B) ->
  is_candidate fs root B rel = true -> is_candidate fs root A rel = true.
Proof.
  intros Hsub. unfold is_candidate. rewrite !andb_true_iff, !negb_true_iff.
  intros [[Hf Hi] Hs]. repeat split; auto.
  destruct (any_part_ignored A rel) eqn:E; [|reflexivity].
  apply (any_part_ignored_mono A B rel Hsub) in E. congruence.
Qed.

(** X7. Excluding more can only remove findings: when every
    [--exclude] argument of a first run is also given to a second run
    from the same root, the second scan returns if the first does and
    raises if the first does, every finding of the second run is a
    finding of the first, and if the first run exits 0 so does the
    second. *)
Theorem more_excludes_fewer_findings path fs e1 e2 :
  (forall x, In x e1 -> In x e2) ->
  let root := fs_resolve fs path in
  (walk_answers fs root ->
   exists f1 s1 f2 s2,
     collect_findings root e1 fs = (Ok f1, s1)
     /\ collect_findings root e2 fs = (Ok f2, s2)
     /\ (forall f, In f f2 -> In f f1))
  /\ (forall e, fst (collect_findings root e1 fs) = Raise e ->
                fst (collect_findings root e2 fs) = Raise e)
  /\ (fst (main {| arg_path := path; arg_exclude := e1 |} fs) = Ok 0%Z ->
      fst (main {| arg_path := path; arg_exclude := e2 |} fs) = Ok 0%Z).
Proof.
  intros Hsub root.
  assert (Hinc : forall f,
             In f (flat_map (file_findings fs) (candidates fs root e2)) ->
             In f (flat_map (file_findings fs) (candidates fs root e1))).
  { intros f. rewrite !List.in_flat_map. intros (p & Hp & Hf).
    exists p. split; [|exact Hf].
    apply in_candidates in Hp as (rel & Hrel & -> & Hc).
    apply in_candidates. exists rel. repeat split; auto.
    apply (is_candidate_anti fs root (ignore_set e1) (ignore_set e2));
      [|exact Hc].
    intros part. rewrite !elem_of_ignore_set. intros [H|H]; auto. }
  rewrite !collect_findings_eq. cbn [fst]. split; [|split].
  - intros Hw. apply walk_raises_false in Hw. rewrite Hw.
    do 4 eexists. split; [reflexivity|]. split; [reflexivity|exact Hinc].
  - intros e. destruct (walk_raises fs root (fs_rglob fs root)); auto.
    discriminate.
  - pose proof (main_eq {| arg_path := path; arg_exclude := e1 |} fs) as H1.
    pose proof (main_eq {| arg_path := path; arg_exclude := e2 |} fs) as H2.
    cbv zeta in H1, H2. cbn [arg_path arg_exclude] in H1, H2.
    fold root in H1, H2. rewrite H1, H2.
    destruct (fs_exists fs root) as [[|]|]; [|simpl; discriminate|auto].
    destruct (walk_raises fs root (fs_rglob fs root)); [auto|].
    destruct (flat_map (file_findings fs) (candidates fs root e1))
      as [|f l1]; [|simpl; discriminate].
    destruct (flat_map (file_findings fs) (candidates fs root e2))
      as [|f l2]; [reflexivity|].
    destruct (Hinc f (or_introl eq_refl)).
Qed.

Lemma more_excludes_fewer_findings_witness :
  (forall x, In x [] -> In x [str "rebuild"]) /\
  walk_answers fs_ignored [str "repo"] /\
  fst (collect_findings [str "repo"] [] fs_ignored)
  = Ok [([str "repo"; str "rebuild"; str "out.txt"],
         str "OpenAI secret", str "sk-AAAAAAAAAAAAAAAAAAAAAAAA");
        ([str "repo"; str "vendor"; str "lib.txt"],
         str "OpenAI secret", str "sk-AAAAAAAAAAAAAAAAAAAAAAAA")] /\
  fst (collect_findings [str "repo"] [str "rebuild"] fs_ignored)
  = Ok [([str "repo"; str "vendor"; str "lib.txt"],
         str "OpenAI secret", str "sk-AAAAAAAAAAAAAAAAAAAAAAAA")] /\
  exists f1 s1 f2 s2,
    collect_findings [str "repo"] [] fs_ignored = (Ok f1, s1)
    /\ collect_findings [str "repo"] [str "rebuild"] fs_ignored = (Ok f2, s2)
    /\ (forall f, In f f2 -> In f f1).
Proof.
  assert (H : forall x : text, In x [] -> In x [str "rebuild"])
    by (intros x []).
  assert (Hw : walk_answers fs_ignored [str "repo"])
    by (repeat constructor; discriminate).
  split; [exact H|]. split; [exact Hw|].
  split; [vm_compute; reflexivity|]. split; [vm_compute; reflexivity|].
  exact (proj1 (more_excludes_fewer_findings (str ".") fs_ignored []
                  [str "rebuild"] H) Hw).
Defined.

Lemma ignore_set_ext e1 e2 :
  (forall x, x ∈ ignore_set e1 <-> x ∈ ignore_set e2) ->
  ignore_set e1 = ignore_set e2.
Proof. intros H. apply set_eq. exact H. Qed.

(** X8. Only the set of ignored names counts: two lists of [--exclude]
    arguments that give the same ignore set (the same names in another
    order, repeated, or naming a built-in default) give the same run,
    call for call and line for line. *)
Theorem exclude_is_a_set path fs e1 e2 :
  (forall x, x ∈ _DEFAULT_IGNORES \/ In x e1 <->
             x ∈ _DEFAULT_IGNORES \/ In x e2) ->
  main {| arg_path := path; arg_exclude := e1 |} fs
  = main {| arg_path := path; arg_exclude := e2 |} fs.
Proof.
  intros H.
  assert (Hs : ignore_set e1 = ignore_set e2).
  { apply ignore_set_ext. intros x. rewrite !elem_of_ignore_set. apply H. }
  unfold main, collect_findings, iter_candidate_files.
  cbn [arg_path arg_exclude]. rewrite Hs. reflexivity.
Qed.

Lemma exclude_is_a_set_witness :
  (forall x, x ∈ _DEFAULT_IGNORES \/
             In x [str "vendor"; str ".git"; str "vendor"] <->
             x ∈ _DEFAULT_IGNORES \/ In x [str "vendor"]) /\
  main {| arg_path := str ".";
          arg_exclude := [str "vendor"; str ".git"; str "vendor"] |}
    fs_ignored
  = main {| arg_path := str "."; arg_exclude := [str "vendor"] |} fs_ignored.
Proof.
  assert (Hgit : str ".git" ∈ _DEFAULT_IGNORES)
    by (apply (bool_decide_unpack _); vm_compute; exact I).
  assert (H : forall x, x ∈ _DEFAULT_IGNORES \/
                        In x [str "vendor"; str ".git"; str "vendor"] <->
                        x ∈ _DEFAULT_IGNORES \/ In x [str "vendor"]).
  { intros x. simpl. split.
    - intros [H|[H|[H|[H|[]]]]]; subst; auto.
    - intros [H|[H|[]]]; auto. }
  split; [exact H|].
  exact (exclude_is_a_set (str ".") fs_ignored _ _ H).
Defined.

(** ** Edge cases of [main] *)

(** X9. When the root exists and the walk lists nothing (an empty
    directory, or a root that is a file), [main] returns 0 after the
    three calls resolve, exists and rglob, and prints only the success
    line, to standard output. *)
Theorem main_empty_tree args fs :
  let root := fs_resolve fs (arg_path args) in
  fs_exists fs root = Some true ->
  fs_rglob fs root = [] ->
  main args fs
  = (Ok 0%Z,
     [EvResolve (arg_path args); EvExists root; EvRglob root;
      EvPrint Stdout msg_clean]).
Proof.
  intros root He Hl. pose proof (main_eq args fs) as Hm. cbv zeta in Hm.
  fold root in Hm. rewrite He in Hm. rewrite Hm.
  unfold candidates, traversal_trace. rewrite Hl. reflexivity.
Qed.

Lemma main_empty_tree_witness :
  fs_exists fs_empty (fs_resolve fs_empty (str ".")) = Some true /\
  fs_rglob fs_empty (fs_resolve fs_empty (str ".")) = [] /\
  main {| arg_path := str "."; arg_exclude := [] |} fs_empty
  = (Ok 0%Z,
     [EvResolve (str "."); EvExists [str "empty"]; EvRglob [str "empty"];
      EvPrint Stdout msg_clean]).
Proof.
  split; [reflexivity|]. split; [reflexivity|].
  exact (main_empty_tree {| arg_path := str "."; arg_exclude := [] |}
           fs_empty eq_refl eq_refl).
Defined.

(** X10. The streams tell the exit status: the process ends with
    status 0 exactly when [main] writes something to standard output;
    a run in which [main] returns has status 0 exactly when it writes
    nothing to the error stream; and a run that an exception ends has
    printed nothing, as every line is printed after the scan. *)
Theorem exit_status_and_streams args fs :
  exists r tr,
    main args fs = (r, tr)
    /\ (exit_status r = 0%Z <-> stream_text Stdout tr <> [])
    /\ (forall code, r = Ok code ->
        (code = 0%Z <-> stream_text Stderr tr = []))
    /\ (forall e, r = Raise e ->
        stream_text Stdout tr = [] /\ stream_text Stderr tr = []).
Proof.
  pose proof (main_eq args fs) as Hm. cbv zeta in Hm.
  set (root := fs_resolve fs (arg_path args)) in *.
  set (findings := flat_map (file_findings fs)
                     (candidates fs root (arg_exclude args))) in *.
  destruct (stream_text_report findings) as [H1 H2].
  destruct (fs_exists fs root) as [[|]|].
  - destruct (walk_raises fs root (fs_rglob fs root));
      do 2 eexists; (split; [exact Hm|]); cbn [stream_text exit_status].
    + rewrite !(stream_text_silent _ _ (traversal_trace_silent fs root _)).
      split; [split; [discriminate|intros H; now destruct H]|].
      split; [discriminate|auto].
    + rewrite !stream_text_app,
        !(stream_text_silent _ _ (traversal_trace_silent fs root _)).
      cbn [app]. rewrite H1, H2. destruct findings as [|f l].
      * split; [split; auto; discriminate|].
        split; [|discriminate]. intros code [= <-]. split; auto.
      * split; [split; intros H; try discriminate; now destruct H|].
        split; [|discriminate]. intros code [= <-]. split; discriminate.
  - do 2 eexists. split; [exact Hm|]. cbn [stream_text exit_status].
    split; [split; intros H; try discriminate; now destruct H|].
    split; [|discriminate]. intros code [= <-]. split; discriminate.
  - do 2 eexists. split; [exact Hm|]. cbn [stream_text exit_status].
    split; [split; intros H; try discriminate; now destruct H|].
    split; [discriminate|auto].
Qed.

(** ** The order of the calls *)

Lemma step_events_read fs root ign rel p :
  In (EvReadText p) (step_events fs root ign (fun p => [EvReadText p]) rel) ->
  p = joinpath root rel /\
  is_candidate fs root ign rel = true /\
  step_events fs root ign (fun p => [EvReadText p]) rel
  = [EvIsFile p; EvStat p; EvReadText p].
Proof.
  unfold step_events. intros [H|H]; [discriminate|].
  destruct (is_candidate fs root ign rel) eqn:Hc.
  - pose proof Hc as Hc'. unfold is_candidate in Hc'.
    apply andb_true_iff in Hc' as [Hc' _]. rewrite Hc' in *.
    destruct H as [H|[[= <-]|[]]]; [discriminate|]. auto.
  - destruct (says_file fs (joinpath root rel)
              && negb (any_part_ignored ign rel)); [|destruct H].
    destruct H as [H|[]]. discriminate.
Qed.

(** X11. A file is read only right after [is_file] and [stat] were
    called on it, in that order, and only if [is_file] answered yes
    and [stat] gave a size of at most 2,097,152 bytes. *)
Theorem read_follows_checks fs root exclude p :
  In (EvReadText p) (snd (collect_findings root exclude fs)) ->
  (exists before after,
     snd (collect_findings root exclude fs)
     = before ++ EvIsFile p :: EvStat p :: EvReadText p :: after)
  /\ fs_is_file fs p = Some true
  /\ exists size, fs_st_size fs p = Some size /\ (size <= 2097152)%Z.
Proof.
  rewrite collect_findings_eq. cbn [snd]. unfold traversal_trace.
  intros [H|H]; [discriminate|].
  apply List.in_flat_map in H as (rel & Hrel & Hev).
  apply step_events_read in Hev as (-> & Hc & Hstep).
  apply List.in_split in Hrel as (l1 & l2 & Hl). rewrite Hl.
  split; [|split].
  - exists (EvRglob root
            :: flat_map (step_events fs root (ignore_set exclude)
                           (fun p => [EvReadText p])) l1),
      (flat_map (step_events fs root (ignore_set exclude)
                   (fun p => [EvReadText p])) l2).
    rewrite List.flat_map_app. cbn [flat_map]. rewrite Hstep.
    reflexivity.
  - unfold is_candidate in Hc. rewrite !andb_true_iff in Hc.
    apply says_file_true. tauto.
  - apply is_candidate_size in Hc. exact Hc.
Qed.

Lemma read_follows_checks_witness :
  In (EvReadText [str "repo"; str "key.txt"])
    (snd (collect_findings [str "repo"] [] fs_one_secret))
  /\ (exists before after,
        snd (collect_findings [str "repo"] [] fs_one_secret)
        = before ++ EvIsFile [str "repo"; str "key.txt"]
          :: EvStat [str "repo"; str "key.txt"]
          :: EvReadText [str "repo"; str "key.txt"] :: after)
  /\ fs_is_file fs_one_secret [str "repo"; str "key.txt"] = Some true
  /\ exists size,
       fs_st_size fs_one_secret [str "repo"; str "key.txt"] = Some size
       /\ (size <= 2097152)%Z.
Proof.
  assert (H : In (EvReadText [str "repo"; str "key.txt"])
                (snd (collect_findings [str "repo"] [] fs_one_secret))).
  { vm_compute. do 3 right. left. reflexivity. }
  split; [exact H|].
  exact (read_follows_checks fs_one_secret [str "repo"] []
           [str "repo"; str "key.txt"] H).
Defined.



(** ** Paths *)

(** X12. [relative_to] undoes [joinpath] and nothing else: a path has
    a relative path below [root] exactly when it is [root] joined with
    that relative path; otherwise the call fails. *)
Theorem relative_to_iff_joinpath path root rel :
  relative_to path root = Some rel <-> path = joinpath root rel.
Proof.
  split; [|intros ->; apply relative_to_joinpath].
  revert path. induction root as [|r root IH]; intros path; simpl.
  - now intros [= ->].
  - destruct path as [|c path]; [discriminate|].
    destruct (decide (c = r)) as [->|]; [|discriminate].
    intros H. apply IH in H. unfold joinpath in *. simpl. now f_equal.
Qed.

(** ** The decoded text *)

Lemma translate_newlines_no_cr_aux t :
  Forall (fun c => c <> 13) (translate_newlines t) /\
  forall c, Forall (fun c => c <> 13) (translate_newlines (c :: t)).
Proof.
  induction t as [|a t [IH1 IH2]].
  - split; [constructor|]. intros c. simpl.
    destruct (N.eqb_spec c 13); repeat constructor; auto; lia.
  - split; [apply IH2|]. intros c.
    cbn [translate_newlines]. destruct (N.eqb_spec c 13).
    + constructor; [lia|]. destruct (N.eqb_spec a 10); [exact IH1|].
      apply IH2.
    + constructor; [assumption|]. apply IH2.
Qed.

Lemma decode_text_no_cr bs : Forall (fun c => c <> 13) (decode_text bs).
Proof. apply translate_newlines_no_cr_aux. Qed.

(** X13. The text [scan_file] scans holds no carriage return: reading
    turns CR LF and a lone CR into a line feed, so no snippet reported
    for a file holds a carriage return. *)
Theorem snippets_hold_no_carriage_return fs path found label snippet :
  fst (scan_file path fs) = Ok found ->
  In (label, snippet) found ->
  ~ In 13 snippet.
Proof.
  rewrite scan_file_eq. cbn [fst]. intros [= <-] Hin H13.
  destruct (fs_read_bytes fs path) as [bs|]; [|destruct Hin].
  apply in_scan_text in Hin as (re & m & _ & Hm & <-).
  apply in_finditer in Hm as (i & n & _ & Hg). rewrite Hg in H13.
  pose proof (decode_text_no_cr bs) as HF.
  apply (Forall_drop _ i), (Forall_take _ n) in HF.
  rewrite List.Forall_forall in HF. now apply (HF 13 H13).
Qed.

Lemma snippets_hold_no_carriage_return_witness :
  fst (scan_file [str "repo"; str "auth.http"] fs_crlf)
  = Ok [(str "Generic bearer token",
         str "Bearer" ++ [10] ++ str "abcDEF1234567890ZZZZ0000")]
  /\ In (str "Generic bearer token",
         str "Bearer" ++ [10] ++ str "abcDEF1234567890ZZZZ0000")
       [(str "Generic bearer token",
         str "Bearer" ++ [10] ++ str "abcDEF1234567890ZZZZ0000")]
  /\ ~ In 13 (str "Bearer" ++ [10] ++ str "abcDEF1234567890ZZZZ0000").
Proof.
  assert (H1 : fst (scan_file [str "repo"; str "auth.http"] fs_crlf)
               = Ok [(str "Generic bearer token",
                      str "Bearer" ++ [10]
                      ++ str "abcDEF1234567890ZZZZ0000")])
    by (vm_compute; reflexivity).
  assert (H2 : In (str "Generic bearer token",
                   str "Bearer" ++ [10] ++ str "abcDEF1234567890ZZZZ0000")
                 [(str "Generic bearer token",
                   str "Bearer" ++ [10] ++ str "abcDEF1234567890ZZZZ0000")])
    by (left; reflexivity).
  split; [exact H1|]. split; [exact H2|].
  exact (snippets_hold_no_carriage_return fs_crlf _ _ _ _ H1 H2).
Defined.

Ltac decode_step IH :=
  match goal with
  | |- context [utf8_decode_ignore ?s] =>
      let HF := fresh "HF" in
      let HL := fresh "HL" in
      destruct (IH s ltac:(cbn [length]; lia)) as [HF HL];
      cbn [length] in HL;
      split;
      [ first [ exact HF
              | constructor; [unfold scalar_value; lia | exact HF] ]
      | cbn [length]; lia ]
  end.

Lemma utf8_decode_ignore_spec : forall n (bs : list byte),
  (length bs <= n)%nat ->
  Forall scalar_value (utf8_decode_ignore bs) /\
  (length (utf8_decode_ignore bs) <= length bs)%nat.
Proof.
  induction n as [|n IH]; intros bs Hlen.
  - destruct bs; [|simpl in Hlen; lia]. split; [constructor|simpl; lia].
  - destruct bs as [|b1 s1]; [split; [constructor|simpl; lia]|].
    pose proof (byte_bounded b1).
    cbn [utf8_decode_ignore]. unfold is_continuation, in_range.
    decode_cases.
    all: try (split; [constructor | lia]).
    all: decode_step IH.
Qed.

Lemma translate_newlines_cons c t :
  translate_newlines (c :: t)
  = if c =? 13 then
      10 :: match t with
            | [] => []
            | c' :: t'' =>
                if c' =? 10 then translate_newlines t''
                else translate_newlines t
            end
    else c :: translate_newlines t.
Proof. reflexivity. Qed.

Lemma translate_newlines_keeps (P : N -> Prop) t :
  P 10 ->
  (Forall P t ->
   Forall P (translate_newlines t) /\
   (length (translate_newlines t) <= length t)%nat) /\
  forall c, Forall P (c :: t) ->
    Forall P (translate_newlines (c :: t)) /\
    (length (translate_newlines (c :: t)) <= length (c :: t))%nat.
Proof.
  intros H10. induction t as [|a t [IH1 IH2]].
  - split; [intros _; split; [constructor|reflexivity]|].
    intros c Hc. apply Forall_cons in Hc as [Hc _]. simpl.
    destruct (N.eqb_spec c 13); split; repeat constructor; auto.
  - split; [apply IH2|]. intros c Hc.
    apply Forall_cons in Hc as [Hc Hat].
    rewrite translate_newlines_cons. destruct (N.eqb_spec c 13).
    + destruct (N.eqb_spec a 10).
      * apply Forall_cons in Hat as [_ Ht].
        destruct (IH1 Ht) as [HF HL]. split; [now constructor|].
        cbn [length]. lia.
      * destruct (IH2 a Hat) as [HF HL]. split; [now constructor|].
        cbn [length] in *. lia.
    + destruct (IH2 a Hat) as [HF HL]. split; [now constructor|].
      cbn [length] in *. lia.
Qed.

(** X14. Whatever the bytes of a file, the text that is scanned holds
    only Unicode scalar values (no surrogate, nothing above U+10FFFF)
    and has at most as many characters as the file has bytes: decoding
    adds nothing. *)
Theorem decoded_text_is_scalar (bs : list byte) :
  Forall scalar_value (decode_text bs)
  /\ (length (decode_text bs) <= length bs)%nat.
Proof.
  destruct (utf8_decode_ignore_spec (length bs) bs (Nat.le_refl _))
    as [HF HL].
  assert (H10 : scalar_value 10) by (unfold scalar_value; lia).
  destruct (translate_newlines_keeps scalar_value (utf8_decode_ignore bs) H10)
    as [Hk _].
  destruct (Hk HF) as [HF' HL']. unfold decode_text. split; [exact HF'|lia].
Qed.

(** X15. A file of ASCII bytes without carriage return is scanned as
    it is, byte for character. *)
Theorem ascii_file_scanned_verbatim fs path bs :
  fs_read_bytes fs path = Some bs ->
  Forall (fun c => c < 128 /\ c <> 13) (List.map Byte.to_N bs) ->
  decode_text bs = List.map Byte.to_N bs
  /\ fst (scan_file path fs) = Ok (scan_text (List.map Byte.to_N bs)).
Proof.
  intros Hr Ha. pose proof (decode_text_ascii bs Ha) as Hd.
  split; [exact Hd|]. now rewrite scan_file_eq, Hr, Hd.
Qed.

Lemma ascii_file_scanned_verbatim_witness :
  fs_read_bytes fs_dirs [str "repo"; str "README"]
  = Some (list_byte_of_string "let x = 1")
  /\ Forall (fun c => c < 128 /\ c <> 13)
       (List.map Byte.to_N (list_byte_of_string "let x = 1"))
  /\ decode_text (list_byte_of_string "let x = 1")
     = List.map Byte.to_N (list_byte_of_string "let x = 1")
  /\ fst (scan_file [str "repo"; str "README"] fs_dirs)
     = Ok (scan_text (List.map Byte.to_N (list_byte_of_string "let x = 1"))).
Proof.
  assert (H : Forall (fun c => c < 128 /\ c <> 13)
                (List.map Byte.to_N (list_byte_of_string "let x = 1"))).
  { vm_compute. repeat constructor; discriminate. }
  split; [reflexivity|]. split; [exact H|].
  exact (ascii_file_scanned_verbatim fs_dirs [str "repo"; str "README"]
           (list_byte_of_string "let x = 1") eq_refl H).
Defined.

Lemma lossy_decoding_encoded (t : text) :
  Forall scalar_value t -> lossy_decoding (flat_map utf8_encode t) t.
Proof.
  induction 1 as [|c t Hc _ IH]; [constructor|].
  cbn [flat_map]. now apply (lossy_char c _ (flat_map utf8_encode t)).
Qed.

(** X17. A well-formed file loses nothing: when the bytes of a file are
    the UTF-8 encodings of the characters of a text, one after the
    other, decoding gives that text back, and [scan_file] returns what
    the patterns find in it once its newlines are translated. *)
Theorem well_formed_file_decoded_exactly fs path bs t :
  fs_read_bytes fs path = Some bs ->
  Forall scalar_value t ->
  List.map Byte.to_N bs = flat_map utf8_encode t ->
  utf8_decode_ignore bs = t
  /\ scan_file path fs
     = (Ok (scan_text (translate_newlines t)), [EvReadText path]).
Proof.
  intros Hr Ht Hbs.
  assert (Hd : utf8_decode_ignore bs = t).
  { symmetry. apply utf8_decode_ignore_lossy. rewrite Hbs.
    now apply lossy_decoding_encoded. }
  split; [exact Hd|]. rewrite scan_file_eq, Hr. unfold decode_text.
  now rewrite Hd.
Qed.

Lemma well_formed_file_decoded_exactly_witness :
  fs_read_bytes fs_kelvin [str "repo"; str "kelvin.txt"] = Some kelvin_bytes
  /\ Forall scalar_value (str "Bearer " ++ repeat 8490 20)
  /\ List.map Byte.to_N kelvin_bytes
     = flat_map utf8_encode (str "Bearer " ++ repeat 8490 20)
  /\ utf8_decode_ignore kelvin_bytes = str "Bearer " ++ repeat 8490 20
  /\ scan_file [str "repo"; str "kelvin.txt"] fs_kelvin
     = (Ok (scan_text (translate_newlines (str "Bearer " ++ repeat 8490 20))),
        [EvReadText [str "repo"; str "kelvin.txt"]])
  /\ fst (scan_file [str "repo"; str "kelvin.txt"] fs_kelvin)
     = Ok [(str "Generic bearer token", str "Bearer " ++ repeat 8490 20)].
Proof.
  assert (H1 : Forall scalar_value (str "Bearer " ++ repeat 8490 20)).
  { apply List.Forall_forall. intros c Hc. apply in_app_or in Hc as [Hc|Hc].
    - vm_compute in Hc. unfold scalar_value.
      repeat (destruct Hc as [<-|Hc]; [lia|]). destruct Hc.
    - apply repeat_spec in Hc. subst c. unfold scalar_value. lia. }
  assert (H2 : List.map Byte.to_N kelvin_bytes
               = flat_map utf8_encode (str "Bearer " ++ repeat 8490 20))
    by (vm_compute; reflexivity).
  split; [reflexivity|]. split; [exact H1|]. split; [exact H2|].
  destruct (well_formed_file_decoded_exactly fs_kelvin
              [str "repo"; str "kelvin.txt"] kelvin_bytes _ eq_refl H1 H2)
    as [Hd Hs].
  split; [exact Hd|]. split; [exact Hs|]. vm_compute. reflexivity.
Defined.
